(** * A contact book: validated fields, records, the address book and
      the upcoming-birthday query of [main.py]

    The development embeds [main.py] shallowly.  Python objects that the
    program mutates (the [Record] instances and the dictionary of the
    [AddressBook]) live in an explicit store; every function of the
    program that can raise is a computation in a state-and-exception
    monad over that store.  Library code the program calls ([re.match],
    [datetime.strptime], [date.replace], [date.strftime], [date + timedelta])
    is modelled after CPython 3.11. *)

From Stdlib Require Import ZArith String Ascii DecimalString.
From stdpp Require Import base tactics option list.

Local Open Scope Z_scope.

(** ** Python strings

    A Python [str] is a sequence of Unicode code points. *)

Definition char : Type := Z.
Definition str : Type := list char.

(** A string literal of the source, as code points. *)
Definition lit (s : string) : str :=
  map (fun a => Z.of_N (N_of_ascii a)) (list_ascii_of_string s).

(** A character literal of the source. *)
Definition ch (a : ascii) : char := Z.of_N (N_of_ascii a).

(** [a == b] on strings. *)
Definition str_eqb (a b : str) : bool := bool_decide (a = b).
Arguments str_eqb : simpl never.

(** Truth value of a string: [if s:] holds unless [s] is empty. *)
Definition truthy (s : str) : bool :=
  match s with [] => false | _ :: _ => true end.

(** [sep.join(parts)]. *)
Fixpoint join (sep : str) (parts : list str) : str :=
  match parts with
  | [] => []
  | [p] => p
  | p :: rest => p ++ sep ++ join sep rest
  end.

(** [str(n)] for an integer that is not negative. *)
Definition str_of_N (n : N) : str :=
  lit (NilEmpty.string_of_uint (N.to_uint n)).

Definition str_of_nat (n : nat) : str := str_of_N (N.of_nat n).

(** ** Exceptions and results *)

Inductive exn : Type :=
| ValueError (msg : str)
| IndexError (msg : str)
| OverflowError (msg : str)
| AttributeError (msg : str)
| OSError (msg : str).

(** [str(e)]. *)
Definition exn_str (e : exn) : str :=
  match e with
  | ValueError m | IndexError m | OverflowError m | AttributeError m
  | OSError m => m
  end.

Inductive outcome (A : Type) : Type :=
| Return (a : A)
| Raise (e : exn).
Arguments Return {A} a.
Arguments Raise {A} e.

Definition is_Return {A} (o : outcome A) : bool :=
  match o with Return _ => true | Raise _ => false end.

(** ** Regular expressions, as far as the program uses them

    [rmatch r s] lists, in the priority order of a backtracking matcher,
    every way in which [r] matches a prefix of [s]: the matched text and
    what is left.  [re.match] takes the first one. *)

(** Zero digits of the blocks of Unicode category Nd (Unicode 14.0): each
    block is ten consecutive code points, the digits 0 to 9 in order. *)
Definition decimal_zeros : list Z :=
  [48; 1632; 1776; 1984; 2406; 2534; 2662; 2790; 2918; 3046; 3174; 3302;
   3430; 3558; 3664; 3792; 3872; 4160; 4240; 6112; 6160; 6470; 6608; 6784;
   6800; 6992; 7088; 7232; 7248; 42528; 43216; 43264; 43472; 43504; 43600;
   44016; 65296; 66720; 68912; 69734; 69872; 69942; 70096; 70384; 70736;
   70864; 71248; 71360; 71472; 71904; 72016; 72784; 73040; 73120; 92768;
   92864; 93008; 120782; 120792; 120802; 120812; 120822; 123200; 123632;
   125264; 130032].

Definition in_block (c z : Z) : bool := (z <=? c) && (c <? z + 10).

(** The block of [c], when [c] is a decimal digit. *)
Definition block_of (c : char) : option Z :=
  find (in_block c) decimal_zeros.

(** [\d]: a Unicode decimal digit. *)
Definition is_decimal (c : char) : bool :=
  match block_of c with Some _ => true | None => false end.

(** The value of a decimal digit. *)
Definition digit_value (c : char) : option Z :=
  z ← block_of c; Some (c - z).

Inductive regex : Type :=
| Lit (c : char)              (* a literal character *)
| Digit                       (* \d *)
| Range (lo hi : char)        (* [lo-hi] *)
| Dollar                      (* $ *)
| Eps                         (* the empty pattern *)
| Seq (r1 r2 : regex)         (* r1 r2 *)
| Alt (r1 r2 : regex).        (* r1|r2 *)

(** [$] without MULTILINE: the end of the string, or just before a newline
    that ends the string. *)
Definition at_dollar (rest : str) : bool :=
  match rest with
  | [] => true
  | [c] => c =? 10
  | _ => false
  end.

(** One character [c] against a pattern that consumes one character. *)
Definition one (ok : char -> bool) (s : str) : list (str * str) :=
  match s with
  | c :: t => if ok c then [([c], t)] else []
  | [] => []
  end.

Fixpoint rmatch (r : regex) (s : str) : list (str * str) :=
  match r with
  | Lit x => one (fun c => c =? x) s
  | Digit => one is_decimal s
  | Range lo hi => one (fun c => (lo <=? c) && (c <=? hi)) s
  | Dollar => if at_dollar s then [([], s)] else []
  | Eps => [([], s)]
  | Seq r1 r2 =>
      '(m1, s1) ← rmatch r1 s;
      '(m2, s2) ← rmatch r2 s1;
      [(m1 ++ m2, s2)]
  | Alt r1 r2 => rmatch r1 s ++ rmatch r2 s
  end.

(** [re.match(r, s)]: the first way in which the whole pattern matches at
    the start of [s], or [None]. *)
Definition re_match (r : regex) (s : str) : option (str * str) :=
  head (rmatch r s).

(** [r{n}]. *)
Fixpoint Rep (n : nat) (r : regex) : regex :=
  match n with
  | O => Eps
  | S n' => Seq r (Rep n' r)
  end.

(** ** The fields *)

Record Field (V : Type) : Type := mkField { value : V }.
Arguments mkField {V} value.
Arguments value {V} f.

Module Name.
Definition t : Type := Field str.

Definition init (v : str) : outcome t :=
  if negb (truthy v) then Raise (ValueError (lit "Name cannot be empty."))
  else Return (mkField v).
End Name.

Module Phone.
Definition t : Type := Field str.

(** [re.match(r"^\d{10}$", phone) is not None]; the match starts at the
    beginning of the string, where [^] holds. *)
Definition validate (phone : str) : bool :=
  match re_match (Seq (Rep 10 Digit) Dollar) phone with
  | Some _ => true
  | None => false
  end.

Definition init (v : str) : outcome t :=
  if negb (validate v) then
    Raise (ValueError (lit "Invalid phone number format."))
  else Return (mkField v).
End Phone.

(** ** Calendar dates ([datetime.date]) *)

Record date : Type := mkdate { year : Z; month : Z; day : Z }.

Definition MINYEAR : Z := 1.
Definition MAXYEAR : Z := 9999.

Definition is_leap (y : Z) : bool :=
  (y mod 4 =? 0) && (negb (y mod 100 =? 0) || (y mod 400 =? 0)).

Definition days_in_month (y m : Z) : Z :=
  if m =? 2 then (if is_leap y then 29 else 28)
  else if (m =? 4) || (m =? 6) || (m =? 9) || (m =? 11) then 30
  else 31.

Definition year_ok (y : Z) : bool := (MINYEAR <=? y) && (y <=? MAXYEAR).
Definition month_ok (m : Z) : bool := (1 <=? m) && (m <=? 12).
Definition day_ok (y m d : Z) : bool := (1 <=? d) && (d <=? days_in_month y m).

(** The dates that exist: the values of [datetime.date]. *)
Definition valid_date (d : date) : bool :=
  year_ok (year d) && month_ok (month d) && day_ok (year d) (month d) (day d).

Definition str_of_Z (n : Z) : str := str_of_N (Z.to_N n).

(** [date(y, m, d)]: the checks of the constructor, in its order. *)
Definition date_new (y m d : Z) : outcome date :=
  if negb (year_ok y) then
    Raise (ValueError (lit "year " ++ str_of_Z y ++ lit " is out of range"))
  else if negb (month_ok m) then
    Raise (ValueError (lit "month must be in 1..12"))
  else if negb (day_ok y m d) then
    Raise (ValueError (lit "day is out of range for month"))
  else Return (mkdate y m d).

(** [d.replace(year=y)]. *)
Definition replace_year (d : date) (y : Z) : outcome date :=
  date_new y (month d) (day d).

(** [a < b] and [a <= b] on dates: the order of (year, month, day). *)
Definition date_ltb (a b : date) : bool :=
  (year a <? year b)
  || ((year a =? year b)
      && ((month a <? month b) || ((month a =? month b) && (day a <? day b)))).

Definition date_eqb (a b : date) : bool :=
  (year a =? year b) && (month a =? month b) && (day a =? day b).

Definition date_leb (a b : date) : bool := date_ltb a b || date_eqb a b.

(** The day after [d]. *)
Definition next_day (d : date) : date :=
  if day d <? days_in_month (year d) (month d) then
    mkdate (year d) (month d) (day d + 1)
  else if month d <? 12 then mkdate (year d) (month d + 1) 1
  else mkdate (year d + 1) 1 1.

Fixpoint plus_days (d : date) (n : nat) : date :=
  match n with
  | O => d
  | S n' => plus_days (next_day d) n'
  end.

(** [d + timedelta(days=n)] for [n] days ahead; the result has to be a date
    up to 31.12.9999. *)
Definition date_add_days (d : date) (n : nat) : outcome date :=
  let r := plus_days d n in
  if year r <=? MAXYEAR then Return r
  else Raise (OverflowError (lit "date value out of range")).


(** ** [datetime.strptime(value, "%d.%m.%Y")] and [strftime("%d.%m.%Y")] *)

(** The pattern into which [_strptime] compiles the format is
    [(?P<d>3[0-1]|[1-2]\d|0[1-9]|[1-9]| [1-9])\.(?P<m>1[0-2]|0[1-9]|[1-9])\.(?P<Y>\d\d\d\d)]. *)
Definition re_d : regex :=
  Alt (Seq (Lit (ch "3")) (Range (ch "0") (ch "1")))
 (Alt (Seq (Range (ch "1") (ch "2")) Digit)
 (Alt (Seq (Lit (ch "0")) (Range (ch "1") (ch "9")))
 (Alt (Range (ch "1") (ch "9"))
      (Seq (Lit (ch " ")) (Range (ch "1") (ch "9")))))).

Definition re_m : regex :=
  Alt (Seq (Lit (ch "1")) (Range (ch "0") (ch "2")))
 (Alt (Seq (Lit (ch "0")) (Range (ch "1") (ch "9")))
      (Range (ch "1") (ch "9"))).

Definition re_Y : regex := Seq Digit (Seq Digit (Seq Digit Digit)).

(** The ways in which the whole pattern matches, with the text of the three
    groups and the rest of the input, in priority order. *)
Definition strptime_groups (s : str) : list (str * str * str * str) :=
  '(d, s1) ← rmatch re_d s;
  '(_, s2) ← rmatch (Lit (ch ".")) s1;
  '(m, s3) ← rmatch re_m s2;
  '(_, s4) ← rmatch (Lit (ch ".")) s3;
  '(Y, s5) ← rmatch re_Y s4;
  [(d, m, Y, s5)].

Fixpoint digits_value (acc : Z) (s : str) : option Z :=
  match s with
  | [] => Some acc
  | c :: t => v ← digit_value c; digits_value (10 * acc + v) t
  end.

(** [int(s)] on the text of a group: decimal digits, after spaces that
    [int] skips. *)
Fixpoint py_int (s : str) : option Z :=
  match s with
  | [] => None
  | c :: t => if c =? ch " " then py_int t else digits_value 0 s
  end.

(** [datetime.strptime(s, "%d.%m.%Y").date()]; [None] stands for the
    [ValueError] it raises, whose message the caller drops. *)
Definition strptime_dmY (s : str) : option date :=
  match head (strptime_groups s) with
  | None => None                      (* does not match format *)
  | Some (d, m, Y, rest) =>
      if truthy rest then None        (* unconverted data remains *)
      else
        y ← py_int Y;
        mo ← py_int m;
        dd ← py_int d;
        match date_new y mo dd with
        | Return dt => Some dt
        | Raise _ => None
        end
  end.

Definition digit_char (n : Z) : char := ch "0" + n.

(** Two digits, zero padded: [%d] and [%m]. *)
Definition pad2 (n : Z) : str := [digit_char (n / 10); digit_char (n mod 10)].

(** Four digits, zero padded. *)
Definition pad4 (n : Z) : str :=
  [digit_char (n / 1000); digit_char (n / 100 mod 10);
   digit_char (n / 10 mod 10); digit_char (n mod 10)].

(** The text without the zeros in front of it; one character at least is
    left. *)
Fixpoint lstrip_zeros (s : str) : str :=
  match s with
  | c :: (_ :: _) as t => if c =? ch "0" then lstrip_zeros t else s
  | _ => s
  end.

(** [%Y] is left to the C library: glibc prints the year as a plain number,
    which for the years 1 to 9999 is the four digits without the zeros in
    front, so a year below 1000 comes out shorter than four digits; other
    libraries pad it with zeros.  [zero_pad] tells which library it is. *)
Definition strftime_Y (zero_pad : bool) (y : Z) : str :=
  if zero_pad then pad4 y else lstrip_zeros (pad4 y).

(** [d.strftime("%d.%m.%Y")]. *)
Definition strftime_dmY (zero_pad : bool) (d : date) : str :=
  pad2 (day d) ++ lit "." ++ pad2 (month d) ++ lit "." ++
  strftime_Y zero_pad (year d).

Module Birthday.
Definition t : Type := Field date.

Definition init (v : str) : outcome t :=
  match strptime_dmY v with
  | Some d => Return (mkField d)
  | None => Raise (ValueError (lit "Invalid date format. Use DD.MM.YYYY"))
  end.
End Birthday.

(** ** Records and the store

    A [Record] object is a cell of the store; a reference is its index.
    The dictionary of the address book keeps its keys in insertion order. *)

Module Rec.
Record t : Type := mk {
  name : Name.t;
  phones : list Phone.t;
  birthday : option Birthday.t
}.

Definition set_phones (ps : list Phone.t) (r : t) : t :=
  mk (name r) ps (birthday r).
Definition set_birthday (b : option Birthday.t) (r : t) : t :=
  mk (name r) (phones r) b.
End Rec.

Abbreviation ref := nat (only parsing).
Definition dict : Type := list (str * ref).

Record world : Type := mkWorld {
  heap : list Rec.t;     (* the Record objects *)
  data : dict            (* AddressBook.data *)
}.

(** [d.get(k)]. *)
Fixpoint dict_get (k : str) (d : dict) : option ref :=
  match d with
  | [] => None
  | (k', v) :: rest => if str_eqb k' k then Some v else dict_get k rest
  end.

(** [d[k] = v]: a key that is present keeps its place. *)
Fixpoint dict_set (k : str) (v : ref) (d : dict) : dict :=
  match d with
  | [] => [(k, v)]
  | (k', v') :: rest =>
      if str_eqb k' k then (k', v) :: rest else (k', v') :: dict_set k v rest
  end.

(** [del d[k]]. *)
Fixpoint dict_del (k : str) (d : dict) : dict :=
  match d with
  | [] => []
  | (k', v') :: rest =>
      if str_eqb k' k then rest else (k', v') :: dict_del k rest
  end.

(** [d.values()]. *)
Definition dict_values (d : dict) : list ref := map snd d.

(** A computation: it ends with a value or an exception and leaves a store;
    [None] is a read through a reference to no object, which no run of the
    program has. *)
Definition M (A : Type) : Type := world -> option (outcome A * world).

#[global] Instance M_ret : MRet M := fun A a w => Some (Return a, w).

#[global] Instance M_bind : MBind M := fun A B f m w =>
  match m w with
  | Some (Return a, w') => f a w'
  | Some (Raise e, w') => Some (Raise e, w')
  | None => None
  end.

Definition raise {A} (e : exn) : M A := fun w => Some (Raise e, w).

Definition lift {A} (o : outcome A) : M A := fun w => Some (o, w).

Definition deref (r : ref) : M Rec.t := fun w =>
  match heap w !! r with
  | Some x => Some (Return x, w)
  | None => None
  end.

(** An update of the object behind [r]. *)
Definition update (r : ref) (f : Rec.t -> Rec.t) : M unit := fun w =>
  match heap w !! r with
  | Some x => Some (Return tt, mkWorld (<[r := f x]> (heap w)) (data w))
  | None => None
  end.

(** A new object. *)
Definition alloc (x : Rec.t) : M ref := fun w =>
  Some (Return (length (heap w)), mkWorld (heap w ++ [x]) (data w)).

Definition get_data : M dict := fun w => Some (Return (data w), w).

Definition put_data (d : dict) : M unit := fun w =>
  Some (Return tt, mkWorld (heap w) d).

(** ** class Record *)

Module RecordM.
(** [Record(name)]. *)
Definition init (name : str) : M ref :=
  n ← lift (Name.init name);
  alloc (Rec.mk n [] None).

Definition add_phone (self : ref) (phone : str) : M unit :=
  p ← lift (Phone.init phone);
  update self (fun r => Rec.set_phones (Rec.phones r ++ [p]) r).

Definition remove_phone (self : ref) (phone : str) : M unit :=
  update self (fun r =>
    Rec.set_phones
      (List.filter (fun p => negb (str_eqb (value p) phone)) (Rec.phones r))
      r).

(** The loop of [edit_phone] from index [i] on, over the phones [ps] that
    are left. *)
Fixpoint edit_phone_loop (self : ref) (i : nat) (ps : list Phone.t)
    (old_phone new_phone : str) : M unit :=
  match ps with
  | [] => raise (ValueError (lit "Phone number not found."))
  | p :: rest =>
      if str_eqb (value p) old_phone then
        q ← lift (Phone.init new_phone);
        update self (fun r => Rec.set_phones (<[i := q]> (Rec.phones r)) r)
      else edit_phone_loop self (S i) rest old_phone new_phone
  end.

Definition edit_phone (self : ref) (old_phone new_phone : str) : M unit :=
  r ← deref self;
  edit_phone_loop self 0 (Rec.phones r) old_phone new_phone.

Definition find_phone (self : ref) (phone : str) : M (option str) :=
  r ← deref self;
  mret (value <$> find (fun p => str_eqb (value p) phone) (Rec.phones r)).

Definition add_birthday (self : ref) (birthday : str) : M unit :=
  b ← lift (Birthday.init birthday);
  update self (Rec.set_birthday (Some b)).

(** [str(record)]. *)
Definition to_str (zero_pad : bool) (r : Rec.t) : str :=
  let birthday_str :=
    match Rec.birthday r with
    | Some b => lit ", birthday: " ++ strftime_dmY zero_pad (value b)
    | None => []
    end in
  lit "Contact name: " ++ value (Rec.name r) ++ lit ", phones: " ++
  join (lit "; ") (map value (Rec.phones r)) ++ birthday_str.
End RecordM.

(** ** class AddressBook *)

Module AddressBook.
Definition add_record (record : ref) : M unit :=
  r ← deref record;
  d ← get_data;
  put_data (dict_set (value (Rec.name r)) record d).

Definition find (name : str) : M (option ref) :=
  d ← get_data;
  mret (dict_get name d).

Definition delete (name : str) : M unit :=
  d ← get_data;
  match dict_get name d with
  | Some _ => put_data (dict_del name d)
  | None => raise (ValueError (lit "Record not found."))
  end.
End AddressBook.

(** ** The upcoming birthdays

    [today] is what [datetime.today().date()] gives. *)

(** The body of the loop for one record whose birthday is [birthday]: the
    date of the next birthday. *)
Definition next_birthday (today birthday : date) : outcome date :=
  match replace_year birthday (year today) with
  | Raise e => Raise e
  | Return nb =>
      if date_ltb nb today then replace_year nb (year today + 1)
      else Return nb
  end.

Fixpoint upcoming_loop (today next_week : date) (records : list ref)
    (upcoming_birthdays : list ref) : M (list ref) :=
  match records with
  | [] => mret upcoming_birthdays
  | record :: rest =>
      r ← deref record;
      match Rec.birthday r with
      | Some b =>
          nb ← lift (next_birthday today (value b));
          if date_leb today nb && date_leb nb next_week then
            upcoming_loop today next_week rest (upcoming_birthdays ++ [record])
          else upcoming_loop today next_week rest upcoming_birthdays
      | None => upcoming_loop today next_week rest upcoming_birthdays
      end
  end.

Definition get_upcoming_birthdays (today : date) : M (list ref) :=
  next_week ← lift (date_add_days today 7);
  d ← get_data;
  upcoming_loop today next_week (dict_values d) [].

(** ** The commands *)

(** What the commands take from outside the program: the date of the day
    and the C library behind [strftime]. *)
Record env : Type := mkEnv {
  today : date;
  zero_pad : bool
}.

(** The decorator: a [ValueError] or an [IndexError] of the command becomes
    the returned string; anything else goes through. *)
Definition input_error (func : M str) : M str := fun w =>
  match func w with
  | Some (Raise (ValueError m), w') => Some (Return (exn_str (ValueError m)), w')
  | Some (Raise (IndexError m), w') => Some (Return (exn_str (IndexError m)), w')
  | r => r
  end.

Definition not_enough (expected : str) (got : nat) : exn :=
  ValueError (lit "not enough values to unpack (expected " ++ expected ++
              lit ", got " ++ str_of_nat got ++ lit ")").

Definition too_many (expected : str) : exn :=
  ValueError (lit "too many values to unpack (expected " ++ expected ++ lit ")").

(** [a, b, *_ = args]. *)
Definition unpack_2_star (args : list str) : outcome (str * str) :=
  match args with
  | a :: b :: _ => Return (a, b)
  | _ => Raise (not_enough (lit "at least 2") (length args))
  end.

(** [a, b = args]. *)
Definition unpack_2 (args : list str) : outcome (str * str) :=
  match args with
  | [a; b] => Return (a, b)
  | _ :: _ :: _ => Raise (too_many (lit "2"))
  | _ => Raise (not_enough (lit "2") (length args))
  end.

(** [a, b, c = args]. *)
Definition unpack_3 (args : list str) : outcome (str * str * str) :=
  match args with
  | [a; b; c] => Return (a, b, c)
  | _ :: _ :: _ :: _ => Raise (too_many (lit "3"))
  | _ => Raise (not_enough (lit "3") (length args))
  end.

(** [args[0]]. *)
Definition index_0 (args : list str) : outcome str :=
  match args with
  | a :: _ => Return a
  | [] => Raise (IndexError (lit "list index out of range"))
  end.

Definition contact_not_found : exn := ValueError (lit "Contact not found.").

Definition add_contact (args : list str) : M str :=
  input_error (
    '(name, phone) ← lift (unpack_2_star args);
    found ← AddressBook.find name;
    '(record, message) ←
      match found with
      | Some record => mret (record, lit "Contact updated.")
      | None =>
          record ← RecordM.init name;
          AddressBook.add_record record;;
          mret (record, lit "Contact added.")
      end;
    (if truthy phone then RecordM.add_phone record phone else mret tt);;
    mret message).

Definition change_phone (args : list str) : M str :=
  input_error (
    '(name, old_phone, new_phone) ← lift (unpack_3 args);
    found ← AddressBook.find name;
    match found with
    | None => raise contact_not_found
    | Some record =>
        RecordM.edit_phone record old_phone new_phone;;
        mret (lit "Phone number updated.")
    end).

Definition show_phones (args : list str) : M str :=
  input_error (
    name ← lift (index_0 args);
    found ← AddressBook.find name;
    match found with
    | None => raise contact_not_found
    | Some record =>
        r ← deref record;
        let phones := map value (Rec.phones r) in
        mret (match phones with
              | [] => lit "No phones found."
              | _ => lit "Phones: " ++ join (lit "; ") phones
              end)
    end).

Definition add_birthday (args : list str) : M str :=
  input_error (
    '(name, birthday) ← lift (unpack_2 args);
    found ← AddressBook.find name;
    match found with
    | None => raise contact_not_found
    | Some record =>
        RecordM.add_birthday record birthday;;
        mret (lit "Birthday added.")
    end).

Definition show_birthday (e : env) (args : list str) : M str :=
  input_error (
    name ← lift (index_0 args);
    found ← AddressBook.find name;
    match found with
    | None => raise contact_not_found
    | Some record =>
        r ← deref record;
        match Rec.birthday r with
        | Some b =>
            mret (lit "Birthday: " ++ strftime_dmY (zero_pad e) (value b))
        | None => mret (lit "No birthday set.")
        end
    end).

Definition no_value : exn :=
  AttributeError (lit "'NoneType' object has no attribute 'value'").

(** One line of the answer of [birthdays]. *)
Definition birthday_line (e : env) (record : ref) : M str :=
  r ← deref record;
  match Rec.birthday r with
  | Some b =>
      mret (value (Rec.name r) ++ lit ": " ++
            strftime_dmY (zero_pad e) (value b))
  | None => raise no_value
  end.

Fixpoint birthday_lines (e : env) (records : list ref) : M (list str) :=
  match records with
  | [] => mret []
  | record :: rest =>
      l ← birthday_line e record;
      ls ← birthday_lines e rest;
      mret (l :: ls)
  end.

Definition birthdays (e : env) (args : list str) : M str :=
  input_error (
    upcoming ← get_upcoming_birthdays (today e);
    match upcoming with
    | [] => mret (lit "No upcoming birthdays.")
    | _ =>
        ls ← birthday_lines e upcoming;
        mret (join [10] ls)
    end).

Definition delete_contact (args : list str) : M str :=
  input_error (
    name ← lift (index_0 args);
    AddressBook.delete name;;
    mret (lit "Contact deleted.")).

Definition empty_world : world := mkWorld [] [].


(** * Properties *)

(** ** Strings and patterns *)

Lemma str_eqb_eq (a b : str) : str_eqb a b = true <-> a = b.
Proof. unfold str_eqb. apply bool_decide_eq_true. Qed.

Lemma str_eqb_neq (a b : str) : str_eqb a b = false <-> a <> b.
Proof. unfold str_eqb. apply bool_decide_eq_false. Qed.

Lemma str_eqb_refl (a : str) : str_eqb a a = true.
Proof. by apply str_eqb_eq. Qed.

Lemma truthy_false (s : str) : truthy s = false <-> s = [].
Proof. destruct s; simpl; split; congruence. Qed.

(** What a pattern matches, told without the matcher: [Matches r m rest]
    when [r] matches the text [m] and [rest] follows it. *)
Fixpoint Matches (r : regex) (m rest : str) : Prop :=
  match r with
  | Lit x => m = [x]
  | Digit => exists c, m = [c] /\ is_decimal c = true
  | Range lo hi => exists c, m = [c] /\ lo <= c <= hi
  | Dollar => m = [] /\ at_dollar rest = true
  | Eps => m = []
  | Seq r1 r2 =>
      exists m1 m2, m = m1 ++ m2 /\ Matches r1 m1 (m2 ++ rest) /\ Matches r2 m2 rest
  | Alt r1 r2 => Matches r1 m rest \/ Matches r2 m rest
  end.

Lemma Matches_Seq (r1 r2 : regex) (m rest : str) :
  Matches (Seq r1 r2) m rest <->
  exists m1 m2, m = m1 ++ m2 /\ Matches r1 m1 (m2 ++ rest) /\ Matches r2 m2 rest.
Proof. done. Qed.

Lemma elem_of_one (ok : char -> bool) (s m rest : str) :
  (m, rest) ∈ one ok s <-> exists c, m = [c] /\ s = c :: rest /\ ok c = true.
Proof.
  destruct s as [|c t]; simpl.
  - split; [by intros ?%elem_of_nil | by intros (? & _ & ? & _)].
  - destruct (ok c) eqn:E.
    + rewrite list_elem_of_singleton. split.
      * intros [= -> ->]. eauto.
      * intros (c' & -> & [= -> ->] & _). done.
    + split; [by intros ?%elem_of_nil |].
      intros (c' & _ & [= -> ->] & ?). congruence.
Qed.

(** The matcher finds exactly the matches. *)
Lemma rmatch_spec (r : regex) : forall s m rest,
  (m, rest) ∈ rmatch r s <-> s = m ++ rest /\ Matches r m rest.
Proof.
  induction r as [x| |lo hi| | |r1 IH1 r2 IH2|r1 IH1 r2 IH2]; intros s m rest; simpl.
  - rewrite elem_of_one. split.
    + intros (c & -> & -> & ->%Z.eqb_eq). done.
    + intros [-> ->]. exists x. by rewrite Z.eqb_refl.
  - rewrite elem_of_one. split.
    + intros (c & -> & -> & ?). eauto.
    + intros [-> (c & -> & ?)]. eauto.
  - rewrite elem_of_one. split.
    + intros (c & -> & -> & ?). split; [done|]. exists c. split; [done|lia].
    + intros [-> (c & -> & ?)]. exists c. repeat split. apply andb_true_iff. lia.
  - destruct (at_dollar s) eqn:E.
    + rewrite list_elem_of_singleton. split.
      * by intros [= -> ->].
      * by intros [-> [-> _]].
    + split; [by intros ?%elem_of_nil|]. intros [-> [-> ?]]. simpl in *. congruence.
  - rewrite list_elem_of_singleton. split.
    + by intros [= -> ->].
    + by intros [-> ->].
  - rewrite list_elem_of_bind. split.
    + intros ([m1 s1] & Hin & H1%IH1). destruct H1 as [-> H1].
      apply list_elem_of_bind in Hin as ([m2 s2] & Hin & H2%IH2).
      destruct H2 as [-> H2]. apply list_elem_of_singleton in Hin as [= -> ->].
      split; [by rewrite app_assoc|]. eauto.
    + intros [-> (m1 & m2 & -> & H1 & H2)].
      exists (m1, m2 ++ rest). split.
      * apply list_elem_of_bind. exists (m2, rest). split.
        -- by apply list_elem_of_singleton.
        -- by apply IH2.
      * apply IH1. by rewrite app_assoc.
  - rewrite elem_of_app, IH1, IH2. tauto.
Qed.

Lemma head_Some_elem {A} (l : list A) (x : A) : head l = Some x -> x ∈ l.
Proof. destruct l; simpl; [done|]. intros [= ->]. apply list_elem_of_here. Qed.

Lemma head_None_nil {A} (l : list A) : head l = None <-> l = [].
Proof. by destruct l. Qed.

(** A list with at most one member has that member at its head. *)
Lemma head_unique {A} (l : list A) (x : A) :
  (forall y, y ∈ l -> y = x) -> x ∈ l -> head l = Some x.
Proof.
  destruct l as [|y l]; simpl; [by intros _ ?%elem_of_nil|].
  intros H _. f_equal. apply H, list_elem_of_here.
Qed.

Lemma at_dollar_true (rest : str) :
  at_dollar rest = true <-> rest = [] \/ rest = [10].
Proof.
  destruct rest as [|c [|c' t]]; simpl.
  - split; [by left | done].
  - rewrite Z.eqb_eq. split; [intros ->; by right | by intros [|[= ->]]].
  - split; [done | by intros [|]].
Qed.

Lemma Matches_Rep_Digit (n : nat) : forall m rest,
  Matches (Rep n Digit) m rest <->
  length m = n /\ Forall (fun c => is_decimal c = true) m.
Proof.
  induction n as [|n IH]; intros m rest; simpl.
  - split; [by intros -> | by intros [->%nil_length_inv _]].
  - split.
    + intros (m1 & m2 & -> & (c & -> & Hc) & [Hlen Hall]%IH).
      simpl. split; [by rewrite Hlen | by constructor].
    + intros [Hlen Hall]. destruct m as [|c m]; [done|].
      apply Forall_cons in Hall as [Hc Hall].
      exists [c], m. repeat split; eauto. apply IH. split; [|done].
      simpl in Hlen. lia.
Qed.

(** ** Name *)

Definition is_space (c : char) : bool :=
  (c =? 32) || ((9 <=? c) && (c <=? 13)).

(** A string of white space only, as [str.isspace] has it. *)
Definition whitespace_only (s : str) : bool := truthy s && forallb is_space s.

(** C6, as the code has it: [Name(s)] raises
    [ValueError("Name cannot be empty.")] exactly when [s] is the empty
    string, and for every other [s], a string of white space included, it
    succeeds and stores [s] as it is. *)
Theorem Name_init_spec (s : str) :
  (Name.init s = Raise (ValueError (lit "Name cannot be empty.")) <-> s = []) /\
  (Name.init s = Return (mkField s) <-> s <> []).
Proof.
  unfold Name.init. destruct s as [|c t]; simpl; split; split; try done.
Qed.

(** C6 does not hold as stated: a name of one space is white space only,
    and [Name] accepts it; nor is the message of the error for the empty
    string the one without the full stop. *)
Lemma Name_init_whitespace_ce :
  whitespace_only (lit " ") = true /\
  Name.init (lit " ") = Return (mkField (lit " ")) /\
  Name.init [] <> Raise (ValueError (lit "Name cannot be empty")).
Proof. repeat split. unfold Name.init; simpl. intros [=]. Qed.

(** ** Phone *)

Definition is_ascii_digit (c : char) : bool := (ch "0" <=? c) && (c <=? ch "9").

(** Exactly ten ASCII digits. *)
Definition ten_ascii_digits (p : str) : bool :=
  (length p =? 10)%nat && forallb is_ascii_digit p.

(** What [Phone.validate] lets through: ten decimal digits of Unicode, and
    no more than one newline after them. *)
Definition ten_decimals_opt_newline (p : str) : Prop :=
  exists ds, length ds = 10%nat /\ Forall (fun c => is_decimal c = true) ds /\
             (p = ds \/ p = ds ++ [10]).

Lemma is_ascii_digit_decimal (c : char) :
  is_ascii_digit c = true -> is_decimal c = true.
Proof.
  unfold is_ascii_digit. change (ch "0") with 48. change (ch "9") with 57.
  intros [H1 H2]%andb_true_iff.
  assert (in_block c 48 = true) as Hb.
  { unfold in_block. apply andb_true_iff. lia. }
  unfold is_decimal, block_of. simpl. by rewrite Hb.
Qed.

Lemma validate_spec (p : str) :
  Phone.validate p = true <-> ten_decimals_opt_newline p.
Proof.
  unfold Phone.validate, re_match, ten_decimals_opt_newline. split.
  - destruct (head _) as [[m rest]|] eqn:E; [intros _|done].
    apply head_Some_elem, rmatch_spec in E as [-> H].
    apply Matches_Seq in H as (m1 & m2 & -> & H%Matches_Rep_Digit & -> & Hd).
    destruct H as [Hlen Hall]. rewrite app_nil_r in *.
    exists m1. repeat split; try done.
    apply at_dollar_true in Hd as [-> | ->]; [left; by rewrite app_nil_r | by right].
  - intros (ds & Hlen & Hall & Hp).
    assert (exists rest, p = ds ++ rest /\ at_dollar rest = true) as (rest & -> & Hd).
    { destruct Hp as [-> | ->]; [exists [] | exists [10]]; by rewrite ?app_nil_r. }
    assert ((ds, rest) ∈ rmatch (Seq (Rep 10 Digit) Dollar) (ds ++ rest)) as Hin.
    { apply rmatch_spec. split; [done|]. apply Matches_Seq.
      exists ds, []. rewrite app_nil_r.
      repeat split; try done. by apply Matches_Rep_Digit. }
    destruct (rmatch _ _); [by apply elem_of_nil in Hin | done].
Qed.

(** C2, as the code has it: [Phone(p)] succeeds exactly when [p] is ten
    decimal digits (the ASCII digits or the decimal digits of another
    script), after which one newline may follow; it then stores [p] as it
    is, and otherwise it raises [ValueError("Invalid phone number format.")].
    Ten ASCII digits are always accepted. *)
Theorem Phone_init_spec (p : str) :
  (Phone.init p = Return (mkField p) <-> ten_decimals_opt_newline p) /\
  (Phone.init p = Raise (ValueError (lit "Invalid phone number format."))
   <-> ~ ten_decimals_opt_newline p) /\
  (ten_ascii_digits p = true -> Phone.init p = Return (mkField p)).
Proof.
  pose proof (validate_spec p) as Hv. unfold Phone.init.
  split; [|split].
  - destruct (Phone.validate p); simpl; split; try done.
    + intros _. by apply Hv.
    + intros H%Hv. done.
  - destruct (Phone.validate p); simpl; split; try done.
    + intros H. destruct H. by apply Hv.
    + intros _ H%Hv. done.
  - intros [Hlen Hall]%andb_true_iff.
    assert (Phone.validate p = true) as ->; [|done].
    apply Hv. exists p. split; [by apply Nat.eqb_eq|]. split; [|by left].
    apply Forall_forall. intros c Hc. apply is_ascii_digit_decimal.
    rewrite forallb_forall in Hall. by apply Hall, list_elem_of_In.
Qed.

(** C2 does not hold as stated: [Phone] accepts ten digits with a newline
    after them, and ten Arabic-Indic digits, neither of which is ten ASCII
    digits; and the message of the error ends in a full stop. *)
Lemma Phone_init_not_ascii_ce :
  let p := lit "0123456789" ++ [10] in
  let q := [1632; 1633; 1634; 1635; 1636; 1637; 1638; 1639; 1640; 1641] in
  (ten_ascii_digits p = false /\ Phone.init p = Return (mkField p)) /\
  (ten_ascii_digits q = false /\ Phone.init q = Return (mkField q)) /\
  Phone.init (lit "12345") <> Raise (ValueError (lit "Invalid phone number format")).
Proof. repeat split. unfold Phone.init; simpl. intros [=]. Qed.

(** ** Birthday *)

Definition in_range (lo hi c : char) : bool := (lo <=? c) && (c <=? hi).

(** The texts the day group matches: [1]..[9]; [30], [31]; [1] or [2] and a
    decimal digit; [01]..[09]; a space and [1]..[9]. *)
Definition is_day_token (D : str) : bool :=
  match D with
  | [a] => in_range (ch "1") (ch "9") a
  | [a; b] =>
      ((a =? ch "3") && in_range (ch "0") (ch "1") b)
      || (in_range (ch "1") (ch "2") a && is_decimal b)
      || ((a =? ch "0") && in_range (ch "1") (ch "9") b)
      || ((a =? ch " ") && in_range (ch "1") (ch "9") b)
  | _ => false
  end.

(** The texts the month group matches: [1]..[9]; [10], [11], [12];
    [01]..[09]. *)
Definition is_month_token (Mo : str) : bool :=
  match Mo with
  | [a] => in_range (ch "1") (ch "9") a
  | [a; b] =>
      ((a =? ch "1") && in_range (ch "0") (ch "2") b)
      || ((a =? ch "0") && in_range (ch "1") (ch "9") b)
  | _ => false
  end.

(** The texts the year group matches: four decimal digits. *)
Definition is_year_token (Y : str) : bool :=
  match Y with
  | [a; b; c; d] => is_decimal a && is_decimal b && is_decimal c && is_decimal d
  | _ => false
  end.

Ltac ch_norm :=
  repeat match goal with
  | |- context [ch ?a] =>
      let v := eval vm_compute in (ch a) in change (ch a) with v
  | H : context [ch ?a] |- _ =>
      let v := eval vm_compute in (ch a) in change (ch a) with v in H
  end.

Ltac bool_props :=
  unfold in_range in *;
  repeat match goal with
  | H : _ && _ = true |- _ => apply andb_true_iff in H as [? ?]
  | H : _ || _ = true |- _ => apply orb_true_iff in H as [?|?]
  | H : (_ =? _) = true |- _ => apply Z.eqb_eq in H
  | H : (_ <=? _) = true |- _ => apply Z.leb_le in H
  | H : exists _, _ |- _ => destruct H
  | H : _ /\ _ |- _ => destruct H
  end.

Lemma Matches_re_d (D rest : str) :
  Matches re_d D rest <-> is_day_token D = true.
Proof.
  unfold re_d, is_day_token. simpl. ch_norm. split.
  - intros H.
    repeat match goal with H : _ \/ _ |- _ => destruct H end;
      bool_props; subst; simpl;
      rewrite ?orb_true_iff, ?andb_true_iff, ?Z.eqb_eq, ?Z.leb_le; unfold in_range;
      rewrite ?orb_true_iff, ?andb_true_iff, ?Z.eqb_eq, ?Z.leb_le; auto 10 with lia.
  - destruct D as [|a [|b [|? ?]]]; try done; intros H; bool_props; subst.
    + do 3 right. left. exists a. split; [done|lia].
    + left. exists [51], [b]. repeat split. exists b. split; [done|lia].
    + right. left. exists [a], [b]. repeat split; eauto.
    + do 2 right. left. exists [48], [b]. repeat split. exists b. split; [done|lia].
    + do 4 right. exists [32], [b]. repeat split. exists b. split; [done|lia].
Qed.

Lemma Matches_re_m (Mo rest : str) :
  Matches re_m Mo rest <-> is_month_token Mo = true.
Proof.
  unfold re_m, is_month_token. simpl. ch_norm. split.
  - intros H.
    repeat match goal with H : _ \/ _ |- _ => destruct H end;
      bool_props; subst; simpl;
      rewrite ?orb_true_iff, ?andb_true_iff, ?Z.eqb_eq, ?Z.leb_le; unfold in_range;
      rewrite ?orb_true_iff, ?andb_true_iff, ?Z.eqb_eq, ?Z.leb_le; auto 10 with lia.
  - destruct Mo as [|a [|b [|? ?]]]; try done; intros H; bool_props; subst.
    + do 2 right. exists a. split; [done|lia].
    + left. exists [49], [b]. repeat split. exists b. split; [done|lia].
    + right. left. exists [48], [b]. repeat split. exists b. split; [done|lia].
Qed.

Lemma Matches_re_Y (Y rest : str) :
  Matches re_Y Y rest <-> is_year_token Y = true.
Proof.
  unfold re_Y, is_year_token. simpl. split.
  - intros H. bool_props. subst. simpl.
    repeat (apply andb_true_iff; split); done.
  - destruct Y as [|a [|b [|c [|d [|? ?]]]]]; try done; intros H; bool_props.
    exists [a], [b; c; d]. repeat split; eauto.
    exists [b], [c; d]. repeat split; eauto.
    exists [c], [d]. repeat split; eauto.
Qed.

Definition dot : char := ch ".".

(** The matches of the whole pattern, told without the matcher. *)
Lemma strptime_groups_spec (v D Mo Y rest : str) :
  (D, Mo, Y, rest) ∈ strptime_groups v <->
  v = D ++ [dot] ++ Mo ++ [dot] ++ Y ++ rest /\
  is_day_token D = true /\ is_month_token Mo = true /\ is_year_token Y = true.
Proof.
  unfold strptime_groups. split.
  - intros H.
    apply list_elem_of_bind in H as ([d s1] & H & [-> Hd%Matches_re_d]%rmatch_spec).
    apply list_elem_of_bind in H as ([x1 s2] & H & [-> ->]%rmatch_spec).
    apply list_elem_of_bind in H as ([m s3] & H & [-> Hm%Matches_re_m]%rmatch_spec).
    apply list_elem_of_bind in H as ([x2 s4] & H & [-> ->]%rmatch_spec).
    apply list_elem_of_bind in H as ([y s5] & H & [-> Hy%Matches_re_Y]%rmatch_spec).
    apply list_elem_of_singleton in H as [= -> -> -> ->]. done.
  - intros (-> & Hd & Hm & Hy).
    apply list_elem_of_bind. exists (D, [dot] ++ Mo ++ [dot] ++ Y ++ rest).
    split; [|apply rmatch_spec; split; [done | by apply Matches_re_d]].
    apply list_elem_of_bind. exists ([dot], Mo ++ [dot] ++ Y ++ rest).
    split; [|by apply rmatch_spec].
    apply list_elem_of_bind. exists (Mo, [dot] ++ Y ++ rest).
    split; [|apply rmatch_spec; split; [done | by apply Matches_re_m]].
    apply list_elem_of_bind. exists ([dot], Y ++ rest).
    split; [|by apply rmatch_spec].
    apply list_elem_of_bind. exists (Y, rest).
    split; [|apply rmatch_spec; split; [done | by apply Matches_re_Y]].
    by apply list_elem_of_singleton.
Qed.

(** No group matches a dot, so the dots of the input tell the groups apart. *)
Definition dotless (T : str) : Prop := Forall (fun c => c <> dot) T.

Lemma dotless_prefix_unique (T : str) : forall T' R R',
  dotless T -> dotless T' -> T ++ dot :: R = T' ++ dot :: R' -> T = T' /\ R = R'.
Proof.
  induction T as [|c T IH]; intros [|c' T'] R R' HT HT'; simpl.
  - by intros [= ->].
  - intros [= <- _]. by apply Forall_cons in HT' as [? _].
  - intros [= -> _]. by apply Forall_cons in HT as [? _].
  - intros [= -> H]. apply Forall_cons in HT as [_ HT].
    apply Forall_cons in HT' as [_ HT'].
    destruct (IH _ _ _ HT HT' H) as [-> ->]. done.
Qed.

Lemma is_decimal_not_dot (c : char) : is_decimal c = true -> c <> dot.
Proof. intros H ->. discriminate H. Qed.

Lemma day_token_dotless (D : str) : is_day_token D = true -> dotless D.
Proof.
  unfold dotless, dot. destruct D as [|a [|b [|? ?]]]; try done; simpl; ch_norm;
    intros H; repeat constructor; bool_props; subst;
    try lia; try (by apply is_decimal_not_dot).
Qed.

Lemma month_token_dotless (Mo : str) : is_month_token Mo = true -> dotless Mo.
Proof.
  unfold dotless, dot. destruct Mo as [|a [|b [|? ?]]]; try done; simpl; ch_norm;
    intros H; repeat constructor; bool_props; subst; try lia.
Qed.

Lemma year_token_split (Y Y' R R' : str) :
  is_year_token Y = true -> is_year_token Y' = true ->
  Y ++ R = Y' ++ R' -> Y = Y' /\ R = R'.
Proof.
  destruct Y as [|a [|b [|c [|d [|? ?]]]]]; try done.
  destruct Y' as [|a' [|b' [|c' [|d' [|? ?]]]]]; try done.
  intros _ _ [= -> -> -> -> ->]. done.
Qed.

(** The pattern matches an input in one way at most. *)
Lemma strptime_groups_unique (v : str) (x y : str * str * str * str) :
  x ∈ strptime_groups v -> y ∈ strptime_groups v -> x = y.
Proof.
  destruct x as [[[D Mo] Y] R], y as [[[D' Mo'] Y'] R'].
  intros (-> & Hd & Hm & Hy)%strptime_groups_spec
         (E & Hd' & Hm' & Hy')%strptime_groups_spec.
  simpl in E.
  apply dotless_prefix_unique in E as [-> E]; auto using day_token_dotless.
  apply dotless_prefix_unique in E as [-> E]; auto using month_token_dotless.
  apply year_token_split in E as [-> ->]; done.
Qed.

Lemma date_new_Return (y m d : Z) (dt : date) :
  date_new y m d = Return dt <->
  valid_date (mkdate y m d) = true /\ dt = mkdate y m d.
Proof.
  unfold date_new, valid_date. simpl.
  destruct (year_ok y), (month_ok m), (day_ok y m d); simpl;
    split; try done; try (by intros [? _]).
  - by intros [= <-].
  - by intros [_ ->].
Qed.

(** [strptime] succeeds exactly on a day, a dot, a month, a dot and a year
    that the three groups match and that make a date. *)
Lemma strptime_dmY_spec (v : str) (dt : date) :
  strptime_dmY v = Some dt <->
  exists D Mo Y y m d,
    v = D ++ [dot] ++ Mo ++ [dot] ++ Y /\
    is_day_token D = true /\ is_month_token Mo = true /\ is_year_token Y = true /\
    py_int Y = Some y /\ py_int Mo = Some m /\ py_int D = Some d /\
    valid_date (mkdate y m d) = true /\ dt = mkdate y m d.
Proof.
  unfold strptime_dmY. split.
  - destruct (head _) as [[[[D Mo] Y] rest]|] eqn:E; [|done].
    apply head_Some_elem, strptime_groups_spec in E as (-> & Hd & Hm & Hy).
    destruct rest; simpl; [|done].
    destruct (py_int Y) as [y|] eqn:Ey; simpl; [|done].
    destruct (py_int Mo) as [m|] eqn:Em; simpl; [|done].
    destruct (py_int D) as [d|] eqn:Ed; simpl; [|done].
    destruct (date_new y m d) as [dt'|] eqn:En; [|done].
    intros [= <-]. apply date_new_Return in En as [? ->].
    exists D, Mo, Y, y, m, d. rewrite app_nil_r. done.
  - intros (D & Mo & Y & y & m & d & -> & Hd & Hm & Hy & Ey & Em & Ed & Hv & ->).
    assert (head (strptime_groups (D ++ [dot] ++ Mo ++ [dot] ++ Y))
            = Some (D, Mo, Y, [])) as ->.
    { assert ((D, Mo, Y, []) ∈ strptime_groups (D ++ [dot] ++ Mo ++ [dot] ++ Y)).
      { apply strptime_groups_spec. by rewrite app_nil_r. }
      apply head_unique; [|done]. intros z Hz.
      by apply (strptime_groups_unique (D ++ [dot] ++ Mo ++ [dot] ++ Y)). }
    simpl. rewrite Ey, Em, Ed. simpl.
    assert (date_new y m d = Return (mkdate y m d)) as ->; [|done].
    by apply date_new_Return.
Qed.

(** A check on every integer of a range, done by computation. *)
Lemma range_check (P : Z -> bool) (lo n : Z) :
  forallb P (seqZ lo n) = true -> forall z, lo <= z < lo + n -> P z = true.
Proof.
  intros H z Hz. rewrite forallb_forall in H.
  apply H, list_elem_of_In, elem_of_seqZ. lia.
Qed.

Definition day_text_ok (d : Z) : bool :=
  is_day_token (pad2 d) && bool_decide (py_int (pad2 d) = Some d).
Definition month_text_ok (m : Z) : bool :=
  is_month_token (pad2 m) && bool_decide (py_int (pad2 m) = Some m).
Definition year_text_ok (y : Z) : bool :=
  is_year_token (pad4 y) && bool_decide (py_int (pad4 y) = Some y).
Definition year_text_plain (y : Z) : bool :=
  bool_decide (lstrip_zeros (pad4 y) = pad4 y).

Lemma day_texts (d : Z) : 1 <= d <= 31 -> day_text_ok d = true.
Proof. intros. apply (range_check day_text_ok 1 31); [by vm_compute | lia]. Qed.

Lemma month_texts (m : Z) : 1 <= m <= 12 -> month_text_ok m = true.
Proof. intros. apply (range_check month_text_ok 1 12); [by vm_compute | lia]. Qed.

(** The number a digit stands for. *)
Lemma digit_value_decimal (c : char) :
  is_decimal c = true -> exists v, digit_value c = Some v /\ 0 <= v <= 9.
Proof.
  unfold is_decimal, digit_value. destruct (block_of c) as [z|] eqn:E; [|done].
  intros _. exists (c - z). split; [done|].
  unfold block_of in E. apply find_some in E as [_ E].
  unfold in_block in E. apply andb_true_iff in E as [?%Z.leb_le ?%Z.ltb_lt]. lia.
Qed.

Lemma digit_value_ascii (c : char) :
  48 <= c <= 57 -> digit_value c = Some (c - 48).
Proof.
  intros H. unfold digit_value, block_of. simpl.
  assert (in_block c 48 = true) as ->; [|done].
  unfold in_block. apply andb_true_iff. lia.
Qed.

(** The numbers the groups stand for: a day from 1 to 31, a month from 1 to
    12 and a year from 0 to 9999. *)
Lemma day_token_value (D : str) :
  is_day_token D = true -> exists d, py_int D = Some d /\ 1 <= d <= 31.
Proof.
  destruct D as [|a [|b [|? ?]]]; try done; simpl; ch_norm; intros H; bool_props; subst.
  - exists (a - 48). assert ((a =? 32) = false) as -> by lia.
    simpl. rewrite digit_value_ascii by lia. simpl. split; [done|lia].
  - exists (30 + (b - 48)). simpl. rewrite (digit_value_ascii b) by lia.
    simpl. split; [f_equal; lia | lia].
  - destruct (digit_value_decimal b) as (v & Hv & ?); [done|].
    exists (10 * (a - 48) + v). assert ((a =? 32) = false) as -> by lia.
    simpl. rewrite (digit_value_ascii a) by lia. simpl. rewrite Hv. simpl.
    split; [f_equal; lia | lia].
  - exists (b - 48). simpl. rewrite (digit_value_ascii b) by lia.
    simpl. split; [f_equal; lia | lia].
  - exists (b - 48). simpl. assert ((b =? 32) = false) as -> by lia.
    simpl. rewrite (digit_value_ascii b) by lia. simpl. split; [f_equal; lia | lia].
Qed.

Lemma month_token_value (Mo : str) :
  is_month_token Mo = true -> exists m, py_int Mo = Some m /\ 1 <= m <= 12.
Proof.
  destruct Mo as [|a [|b [|? ?]]]; try done; simpl; ch_norm; intros H; bool_props; subst.
  - exists (a - 48). assert ((a =? 32) = false) as -> by lia.
    simpl. rewrite digit_value_ascii by lia. simpl. split; [done|lia].
  - exists (10 + (b - 48)). simpl. rewrite (digit_value_ascii b) by lia.
    simpl. split; [f_equal; lia | lia].
  - exists (b - 48). simpl. rewrite (digit_value_ascii b) by lia.
    simpl. split; [f_equal; lia | lia].
Qed.

Lemma year_token_value (Y : str) :
  is_year_token Y = true -> exists y, py_int Y = Some y /\ 0 <= y <= 9999.
Proof.
  destruct Y as [|a [|b [|c [|d [|? ?]]]]]; try done; simpl; intros H; bool_props.
  destruct (digit_value_decimal a) as (va & Ha & ?); [done|].
  destruct (digit_value_decimal b) as (vb & Hb & ?); [done|].
  destruct (digit_value_decimal c) as (vc & Hc & ?); [done|].
  destruct (digit_value_decimal d) as (vd & Hd & ?); [done|].
  assert ((a =? ch " ") = false) as ->.
  { apply Z.eqb_neq. intros ->. discriminate. }
  exists (10 * (10 * (10 * (10 * 0 + va) + vb) + vc) + vd).
  rewrite Ha. simpl. rewrite Hb. simpl. rewrite Hc. simpl. rewrite Hd. simpl.
  split; [done|lia].
Qed.

Lemma strptime_gives_Birthday (v : str) (dt : date) :
  (exists D Mo Y y m d,
     v = D ++ [dot] ++ Mo ++ [dot] ++ Y /\
     is_day_token D = true /\ is_month_token Mo = true /\
     is_year_token Y = true /\
     py_int Y = Some y /\ py_int Mo = Some m /\ py_int D = Some d /\
     valid_date (mkdate y m d) = true /\ dt = mkdate y m d) ->
  Birthday.init v = Return (mkField dt).
Proof.
  intros H%strptime_dmY_spec. unfold Birthday.init. by rewrite H.
Qed.

(** The four digits of a year. *)
Lemma digits4 (y : Z) :
  0 <= y <= 9999 ->
  0 <= y / 1000 <= 9 /\ 0 <= y / 100 mod 10 <= 9 /\
  0 <= y / 10 mod 10 <= 9 /\ 0 <= y mod 10 <= 9 /\
  y = 1000 * (y / 1000) + 100 * (y / 100 mod 10) + 10 * (y / 10 mod 10) + y mod 10.
Proof. intros H. Z.div_mod_to_equations. lia. Qed.

Lemma digit_char_decimal (n : Z) :
  0 <= n <= 9 ->
  is_decimal (digit_char n) = true /\ digit_value (digit_char n) = Some n /\
  (digit_char n =? ch " ") = false.
Proof.
  intros H. unfold digit_char. ch_norm. repeat split.
  - apply is_ascii_digit_decimal. unfold is_ascii_digit. ch_norm.
    apply andb_true_iff. lia.
  - rewrite digit_value_ascii by lia. f_equal. lia.
  - lia.
Qed.

Lemma year_texts (y : Z) : 1 <= y <= 9999 -> year_text_ok y = true.
Proof.
  intros H. destruct (digits4 y) as (Ha & Hb & Hc & Hd & Hy); [lia|].
  destruct (digit_char_decimal _ Ha) as (Ha1 & Ha2 & Ha3).
  destruct (digit_char_decimal _ Hb) as (Hb1 & Hb2 & _).
  destruct (digit_char_decimal _ Hc) as (Hc1 & Hc2 & _).
  destruct (digit_char_decimal _ Hd) as (Hd1 & Hd2 & _).
  unfold year_text_ok, pad4. cbn [is_year_token py_int digits_value].
  rewrite Ha1, Hb1, Hc1, Hd1, Ha3, Ha2. simpl. rewrite Hb2. simpl.
  rewrite Hc2. simpl. rewrite Hd2. simpl.
  apply bool_decide_eq_true. f_equal. lia.
Qed.

Lemma year_texts_plain (y : Z) : 1000 <= y <= 9999 -> year_text_plain y = true.
Proof.
  intros H. apply bool_decide_eq_true. unfold pad4. cbn [lstrip_zeros].
  assert ((digit_char (y / 1000) =? ch "0") = false) as ->; [|done].
  unfold digit_char. ch_norm. apply Z.eqb_neq. Z.div_mod_to_equations. lia.
Qed.

Definition invalid_date_format : exn :=
  ValueError (lit "Invalid date format. Use DD.MM.YYYY").

(** Two digits, a dot, two digits, a dot and four digits, all ASCII, that
    name a date. *)
Definition strict_DDMMYYYY (v : str) : bool :=
  match v with
  | [d1; d2; p1; m1; m2; p2; y1; y2; y3; y4] =>
      forallb is_ascii_digit [d1; d2; m1; m2; y1; y2; y3; y4]
      && (p1 =? dot) && (p2 =? dot)
      && valid_date
           (mkdate (1000 * (y1 - 48) + 100 * (y2 - 48) + 10 * (y3 - 48) + (y4 - 48))
                   (10 * (m1 - 48) + (m2 - 48))
                   (10 * (d1 - 48) + (d2 - 48)))
  | _ => false
  end.

(** C3, as the code has it: [Birthday(v)] succeeds exactly when [v] is a
    day, a dot, a month, a dot and a year such that the day is one of the
    texts of [is_day_token] (one or two digits, a leading zero or a leading
    space allowed), the month one of [is_month_token] (one or two digits),
    the year four decimal digits, and the three numbers are a date of the
    calendar from year 1 on; it then holds that date.  Every other input
    raises [ValueError("Invalid date format. Use DD.MM.YYYY")].  The inputs
    29.02.2020, 31.04.2020, 2020-02-29 and 30.02.2024 behave as the claim
    says. *)
Theorem Birthday_init_spec (v : str) :
  (forall dt, Birthday.init v = Return (mkField dt) <->
     exists D Mo Y y m d,
       v = D ++ [dot] ++ Mo ++ [dot] ++ Y /\
       is_day_token D = true /\ is_month_token Mo = true /\
       is_year_token Y = true /\
       py_int Y = Some y /\ py_int Mo = Some m /\ py_int D = Some d /\
       valid_date (mkdate y m d) = true /\ dt = mkdate y m d) /\
  (is_Return (Birthday.init v) = false <->
     Birthday.init v = Raise invalid_date_format) /\
  Birthday.init (lit "29.02.2020") = Return (mkField (mkdate 2020 2 29)) /\
  Birthday.init (lit "31.04.2020") = Raise invalid_date_format /\
  Birthday.init (lit "2020-02-29") = Raise invalid_date_format /\
  Birthday.init (lit "30.02.2024") = Raise invalid_date_format.
Proof.
  split; [|split; [|by repeat split]].
  - intros dt. rewrite <- strptime_dmY_spec. unfold Birthday.init.
    destruct (strptime_dmY v); split; try done.
    + by intros [= ->].
    + by intros [= ->].
  - unfold Birthday.init. destruct (strptime_dmY v); simpl; split; done.
Qed.

(** C3 does not hold as stated: a day and a month of one digit, and a day
    with a space before it, are accepted, though the input is not of the
    strict form. *)
Lemma Birthday_init_lenient_ce :
  (strict_DDMMYYYY (lit "1.2.2020") = false /\
   Birthday.init (lit "1.2.2020") = Return (mkField (mkdate 2020 2 1))) /\
  (strict_DDMMYYYY (lit " 1.02.2020") = false /\
   Birthday.init (lit " 1.02.2020") = Return (mkField (mkdate 2020 2 1))).
Proof. repeat split. Qed.

(** The canonical text of a date: DD.MM.YYYY. *)
Definition canonical_dmY (dt : date) : str :=
  pad2 (day dt) ++ lit "." ++ pad2 (month dt) ++ lit "." ++ pad4 (year dt).

Lemma valid_date_bounds (dt : date) :
  valid_date dt = true ->
  1 <= year dt <= 9999 /\ 1 <= month dt <= 12 /\ 1 <= day dt <= 31.
Proof.
  unfold valid_date, year_ok, month_ok, day_ok, days_in_month, MINYEAR, MAXYEAR.
  intros H. repeat (apply andb_true_iff in H as [H ?]).
  repeat match goal with H : (_ <=? _) = true |- _ => apply Z.leb_le in H end.
  repeat match goal with
         | H : context [if ?b then _ else _] |- _ => destruct b
         end; lia.
Qed.

(** [Birthday] reads the canonical text of a date as that date. *)
Lemma Birthday_init_canonical (dt : date) :
  valid_date dt = true -> Birthday.init (canonical_dmY dt) = Return (mkField dt).
Proof.
  intros Hv. destruct (valid_date_bounds dt Hv) as (Hy & Hm & Hd).
  apply (strptime_gives_Birthday (canonical_dmY dt) dt).
  apply day_texts in Hd as [? ?%bool_decide_eq_true]%andb_true_iff.
  apply month_texts in Hm as [? ?%bool_decide_eq_true]%andb_true_iff.
  apply year_texts in Hy as [? ?%bool_decide_eq_true]%andb_true_iff.
  exists (pad2 (day dt)), (pad2 (month dt)), (pad4 (year dt)),
         (year dt), (month dt), (day dt).
  destruct dt as [y m d]. done.
Qed.

(** C9, as the code has it: the canonical text DD.MM.YYYY of a date is read
    by [Birthday] as that date, and [strftime("%d.%m.%Y")] gives the text
    back, when the year has four digits (1000 to 9999) or the C library pads
    the year with zeros. *)
Theorem Birthday_roundtrip (zp : bool) (dt : date) (s : str) :
  valid_date dt = true -> s = canonical_dmY dt ->
  zp = true \/ 1000 <= year dt ->
  exists b, Birthday.init s = Return b /\ strftime_dmY zp (value b) = s.
Proof.
  intros Hv -> Hy. exists (mkField dt).
  split; [by apply Birthday_init_canonical|]. simpl.
  unfold strftime_dmY, canonical_dmY, strftime_Y. destruct zp; [done|].
  destruct Hy as [|Hy]; [done|].
  destruct (valid_date_bounds dt Hv) as (? & _).
  assert (year_text_plain (year dt) = true) as ->%bool_decide_eq_true; [|done].
  apply year_texts_plain. lia.
Qed.

Lemma Birthday_roundtrip_witness :
  exists b, Birthday.init (lit "29.02.2020") = Return b /\
            strftime_dmY false (value b) = lit "29.02.2020".
Proof.
  apply (Birthday_roundtrip false (mkdate 2020 2 29) (lit "29.02.2020")).
  - reflexivity.
  - reflexivity.
  - right. simpl. lia.
Defined.

(** C9 does not hold as stated: 01.01.0999 is the canonical text of a date,
    [Birthday] reads it, and with glibc, which does not pad the year,
    [strftime] gives 01.01.999. *)
Lemma Birthday_roundtrip_year_ce :
  let dt := mkdate 999 1 1 in
  valid_date dt = true /\
  canonical_dmY dt = lit "01.01.0999" /\
  Birthday.init (lit "01.01.0999") = Return (mkField dt) /\
  strftime_dmY false dt = lit "01.01.999" /\
  strftime_dmY false dt <> lit "01.01.0999".
Proof. repeat split. intros [=]. Qed.

(** ** Computations on the store *)

Lemma bind_Return {A B} (m : M A) (f : A -> M B) (w w' : world) (a : A) :
  m w = Some (Return a, w') -> (m ≫= f) w = f a w'.
Proof. unfold mbind, M_bind. by intros ->. Qed.

Lemma bind_Raise {A B} (m : M A) (f : A -> M B) (w w' : world) (e : exn) :
  m w = Some (Raise e, w') -> (m ≫= f) w = Some (Raise e, w').
Proof. unfold mbind, M_bind. by intros ->. Qed.

Lemma deref_Some (record : ref) (r : Rec.t) (w : world) :
  heap w !! record = Some r -> deref record w = Some (Return r, w).
Proof. unfold deref. by intros ->. Qed.

Lemma update_Some (record : ref) (r : Rec.t) (f : Rec.t -> Rec.t) (w : world) :
  heap w !! record = Some r ->
  update record f w = Some (Return tt, mkWorld (<[record := f r]> (heap w)) (data w)).
Proof. unfold update. by intros ->. Qed.

(** ** The dictionary *)

Lemma dict_get_set_eq (k : str) (v : ref) (d : dict) :
  dict_get k (dict_set k v d) = Some v.
Proof.
  induction d as [|[k' v'] d IH]; simpl.
  - by rewrite str_eqb_refl.
  - destruct (str_eqb k' k) eqn:E; simpl; rewrite E; done.
Qed.

Lemma dict_get_set_ne (k k' : str) (v : ref) (d : dict) :
  k' <> k -> dict_get k' (dict_set k v d) = dict_get k' d.
Proof.
  intros Hne. induction d as [|[k0 v0] d IH]; simpl.
  - by apply not_eq_sym, str_eqb_neq in Hne as ->.
  - destruct (str_eqb k0 k) eqn:E; simpl.
    + apply str_eqb_eq in E as ->. apply not_eq_sym, str_eqb_neq in Hne.
      by rewrite Hne.
    + by rewrite IH.
Qed.

Lemma dict_set_present (k : str) (v v0 : ref) (d : dict) :
  dict_get k d = Some v0 -> map fst (dict_set k v d) = map fst d.
Proof.
  induction d as [|[k' v'] d IH]; simpl; [done|].
  destruct (str_eqb k' k) eqn:E; simpl; [done|]. intros H. f_equal. by apply IH.
Qed.

Lemma dict_get_Some_elem (k : str) (v : ref) (d : dict) :
  dict_get k d = Some v -> (k, v) ∈ d.
Proof.
  induction d as [|[k' v'] d IH]; simpl; [done|].
  destruct (str_eqb k' k) eqn:E.
  - apply str_eqb_eq in E as ->. intros [= ->]. apply list_elem_of_here.
  - intros H. apply list_elem_of_further. by apply IH.
Qed.

(** ** Record.edit_phone *)

(** The place of the first phone whose value is [old]. *)
Fixpoint first_index (old : str) (ps : list Phone.t) : option nat :=
  match ps with
  | [] => None
  | p :: rest =>
      if str_eqb (value p) old then Some O else S <$> first_index old rest
  end.



Definition phone_not_found : exn := ValueError (lit "Phone number not found.").
Definition invalid_phone : exn := ValueError (lit "Invalid phone number format.").

(** The loop, from the place [i], in one step. *)
Lemma edit_phone_loop_spec (self : ref) (old new : str) (w : world) :
  forall ps i,
  RecordM.edit_phone_loop self i ps old new w =
  match first_index old ps with
  | None => Some (Raise phone_not_found, w)
  | Some k =>
      match Phone.init new with
      | Raise e => Some (Raise e, w)
      | Return q =>
          update self
            (fun r => Rec.set_phones (<[(i + k)%nat := q]> (Rec.phones r)) r) w
      end
  end.
Proof.
  induction ps as [|p ps IH]; intros i; simpl; [done|].
  destruct (str_eqb (value p) old).
  - rewrite Nat.add_0_r. unfold mbind, M_bind, lift.
    by destruct (Phone.init new).
  - rewrite IH. destruct (first_index old ps) as [k|]; simpl; [|done].
    by rewrite Nat.add_succ_r.
Qed.

Lemma Phone_init_cases (new : str) :
  Phone.init new =
  if Phone.validate new then Return (mkField new) else Raise invalid_phone.
Proof. unfold Phone.init. by destruct (Phone.validate new). Qed.

Lemma edit_phone_eq (self : ref) (r : Rec.t) (old new : str) (w : world) :
  heap w !! self = Some r ->
  RecordM.edit_phone self old new w =
  match first_index old (Rec.phones r) with
  | None => Some (Raise phone_not_found, w)
  | Some i =>
      if Phone.validate new then
        Some (Return tt,
              mkWorld (<[self := Rec.set_phones
                                   (<[i := mkField new]> (Rec.phones r)) r]>
                         (heap w)) (data w))
      else Some (Raise invalid_phone, w)
  end.
Proof.
  intros Hr. unfold RecordM.edit_phone.
  rewrite (bind_Return _ _ w w r) by by apply deref_Some.
  rewrite edit_phone_loop_spec. destruct (first_index _ _) as [i|]; [|done].
  rewrite Phone_init_cases. destruct (Phone.validate new); [|done].
  by rewrite (update_Some self r).
Qed.


(** A book with one contact, A, whose only phone is 1111111111. *)
Definition rec_A : Rec.t :=
  Rec.mk (mkField (lit "A")) [mkField (lit "1111111111")] None.
Definition world_A : world := mkWorld [rec_A] [(lit "A", O)].



(** ** AddressBook.add_record *)

(** C8: for a record object [record] whose name is [k], [add_record] ends
    without an exception; it stores the object under [k], whether [k] was a
    key before or not, so that [find(k)] gives that very object; [find] of
    any other key gives what it gave before; no record is touched, a key
    that was present keeps its place and no key is added for it. *)
Theorem add_record_spec (w : world) (record : ref) (r : Rec.t) :
  heap w !! record = Some r ->
  let k := value (Rec.name r) in
  exists w',
    AddressBook.add_record record w = Some (Return tt, w') /\
    heap w' = heap w /\
    AddressBook.find k w' = Some (Return (Some record), w') /\
    (forall k', k' <> k ->
       AddressBook.find k' w' = Some (Return (dict_get k' (data w)), w')) /\
    (forall old, dict_get k (data w) = Some old ->
       map fst (data w') = map fst (data w)).
Proof.
  intros Hr k. exists (mkWorld (heap w) (dict_set k record (data w))).
  unfold AddressBook.add_record, AddressBook.find.
  rewrite (bind_Return _ _ w w r) by by apply deref_Some.
  repeat split.
  - unfold mbind, mret, M_bind, M_ret, get_data. simpl.
    by rewrite dict_get_set_eq.
  - intros k' Hk'. unfold mbind, mret, M_bind, M_ret, get_data. simpl.
    by rewrite dict_get_set_ne.
  - intros old Hold. simpl. by apply (dict_set_present k record old).
Qed.

(** A second object that bears the name A. *)
Definition world_AA : world :=
  mkWorld [rec_A; Rec.mk (mkField (lit "A")) [] None] [(lit "A", O)].

Lemma add_record_spec_witness :
  exists w',
    AddressBook.add_record 1%nat world_AA = Some (Return tt, w') /\
    heap w' = heap world_AA /\
    AddressBook.find (lit "A") w' = Some (Return (Some 1%nat), w') /\
    (forall k', k' <> lit "A" ->
       AddressBook.find k' w' = Some (Return (dict_get k' (data world_AA)), w')) /\
    (forall old, dict_get (lit "A") (data world_AA) = Some old ->
       map fst (data w') = map fst (data world_AA)).
Proof.
  apply (add_record_spec world_AA 1%nat (Rec.mk (mkField (lit "A")) [] None)).
  reflexivity.
Defined.

(** ** add_contact on a name that is present *)

Ltac unfold_M :=
  unfold mbind, mret, M_bind, M_ret, lift, raise, get_data, put_data in *.

Lemma validate_truthy (phone : str) :
  Phone.validate phone = true -> truthy phone = true.
Proof. by destruct phone. Qed.

Lemma add_contact_present (w : world) (name phone : str) (extra : list str)
    (record : ref) (r : Rec.t) :
  dict_get name (data w) = Some record -> heap w !! record = Some r ->
  add_contact (name :: phone :: extra) w =
  if truthy phone then
    if Phone.validate phone then
      Some (Return (lit "Contact updated."),
            mkWorld (<[record := Rec.set_phones
                                   (Rec.phones r ++ [mkField phone]) r]> (heap w))
                    (data w))
    else Some (Return (lit "Invalid phone number format."), w)
  else Some (Return (lit "Contact updated."), w).
Proof.
  intros Hget Hr.
  unfold add_contact, input_error, AddressBook.find, RecordM.add_phone.
  unfold_M. simpl. rewrite Hget. simpl.
  destruct (truthy phone); [|done].
  rewrite Phone_init_cases. destruct (Phone.validate phone); [|done].
  by rewrite (update_Some record r).
Qed.

(** C10: when [name] is a key of the book, [add_contact([name, phone])]
    leaves the book as it is (the name still leads to the same object) and
    touches no other record; the object keeps its name, its birthday and
    its phones in their order, and a [phone] that is valid is put after
    them, with the answer "Contact updated."; a [phone] that is not valid
    leaves the phones as they are. *)
Theorem add_contact_existing (w : world) (name phone : str) (extra : list str)
    (record : ref) (r : Rec.t) :
  dict_get name (data w) = Some record -> heap w !! record = Some r ->
  exists msg w' r',
    add_contact (name :: phone :: extra) w = Some (Return msg, w') /\
    data w' = data w /\
    length (heap w') = length (heap w) /\
    (forall other, other <> record -> heap w' !! other = heap w !! other) /\
    heap w' !! record = Some r' /\
    Rec.name r' = Rec.name r /\
    Rec.birthday r' = Rec.birthday r /\
    (Phone.validate phone = true ->
       Rec.phones r' = Rec.phones r ++ [mkField phone] /\
       msg = lit "Contact updated.") /\
    (Phone.validate phone = false -> Rec.phones r' = Rec.phones r).
Proof.
  intros Hget Hr. rewrite (add_contact_present w name phone extra record r Hget Hr).
  destruct (Phone.validate phone) eqn:Hv.
  - rewrite (validate_truthy phone Hv).
    eexists _, _, (Rec.set_phones (Rec.phones r ++ [mkField phone]) r).
    split; [done|]. simpl. repeat split; try done.
    + by rewrite length_insert.
    + intros other Hne. by rewrite list_lookup_insert_ne.
    + apply list_lookup_insert_eq. by apply lookup_lt_Some in Hr.
  - exists (if truthy phone then lit "Invalid phone number format."
            else lit "Contact updated."), w, r.
    split; [by destruct (truthy phone)|]. repeat split; done.
Qed.

(** Contact A has a phone and a birthday; a second phone is added. *)
Definition rec_A_birthday : Rec.t :=
  Rec.mk (mkField (lit "A")) [mkField (lit "1111111111")]
         (Some (mkField (mkdate 1990 6 12))).
Definition world_A_birthday : world := mkWorld [rec_A_birthday] [(lit "A", O)].

Lemma add_contact_existing_witness :
  exists msg w' r',
    add_contact [lit "A"; lit "2222222222"] world_A_birthday
      = Some (Return msg, w') /\
    data w' = data world_A_birthday /\
    length (heap w') = length (heap world_A_birthday) /\
    (forall other, other <> O ->
       heap w' !! other = heap world_A_birthday !! other) /\
    heap w' !! O = Some r' /\
    Rec.name r' = Rec.name rec_A_birthday /\
    Rec.birthday r' = Rec.birthday rec_A_birthday /\
    (Phone.validate (lit "2222222222") = true ->
       Rec.phones r' = Rec.phones rec_A_birthday ++ [mkField (lit "2222222222")] /\
       msg = lit "Contact updated.") /\
    (Phone.validate (lit "2222222222") = false ->
       Rec.phones r' = Rec.phones rec_A_birthday).
Proof.
  apply (add_contact_existing world_A_birthday (lit "A") (lit "2222222222") []
           O rec_A_birthday); reflexivity.
Defined.

(** ** The store of a run

    In a run of the program every value of the dictionary is a [Record]
    object. *)
Definition wf (w : world) : Prop :=
  Forall (fun record => (record < length (heap w))%nat) (dict_values (data w)).

Lemma wf_lookup (w : world) (name : str) (record : ref) :
  wf w -> dict_get name (data w) = Some record ->
  exists r, heap w !! record = Some r.
Proof.
  intros Hwf Hget. apply lookup_lt_is_Some_2.
  unfold wf in Hwf. rewrite Forall_forall in Hwf. apply Hwf.
  apply dict_get_Some_elem in Hget. unfold dict_values.
  apply list_elem_of_fmap. by exists (name, record).
Qed.

Lemma dict_values_set (k : str) (v : ref) (d : dict) (P : ref -> Prop) :
  P v -> Forall P (dict_values d) -> Forall P (dict_values (dict_set k v d)).
Proof.
  intros Hv. unfold dict_values. induction d as [|[k' v'] d IH]; simpl.
  - by repeat constructor.
  - intros [? ?]%Forall_cons. destruct (str_eqb k' k); simpl.
    + by constructor.
    + constructor; [done | by apply IH].
Qed.

Lemma dict_values_del (k : str) (d : dict) (P : ref -> Prop) :
  Forall P (dict_values d) -> Forall P (dict_values (dict_del k d)).
Proof.
  unfold dict_values. induction d as [|[k' v'] d IH]; simpl; [done|].
  intros [? ?]%Forall_cons. destruct (str_eqb k' k); simpl; [done|].
  constructor; [done | by apply IH].
Qed.

Lemma wf_update (w : world) (record : ref) (x : Rec.t) :
  wf w -> wf (mkWorld (<[record := x]> (heap w)) (data w)).
Proof. unfold wf. simpl. by rewrite length_insert. Qed.

Lemma wf_alloc_set (w : world) (k : str) (x : Rec.t) :
  wf w ->
  wf (mkWorld (heap w ++ [x]) (dict_set k (length (heap w)) (data w))).
Proof.
  unfold wf. simpl. intros H. rewrite length_app. simpl.
  apply dict_values_set; [lia|].
  eapply Forall_impl; [done|]. simpl. intros; lia.
Qed.

Lemma wf_del (w : world) (k : str) :
  wf w -> wf (mkWorld (heap w) (dict_del k (data w))).
Proof. unfold wf. simpl. apply dict_values_del. Qed.

(** A command has answered: it ended with a string and a store of a run. *)
Definition answers (c : M str) (w : world) : Prop :=
  exists s w', c w = Some (Return s, w') /\ wf w'.

Lemma answers_intro (c : M str) (w w' : world) (s : str) :
  c w = Some (Return s, w') -> wf w' -> answers c w.
Proof. intros. by exists s, w'. Qed.

Lemma add_contact_answers (args : list str) (w : world) :
  wf w -> answers (add_contact args) w.
Proof.
  intros Hwf. destruct args as [|name [|phone extra]].
  - by eapply answers_intro.
  - by eapply answers_intro.
  - destruct (dict_get name (data w)) as [record|] eqn:Hget.
    + destruct (wf_lookup w name record Hwf Hget) as [r Hr].
      unfold answers.
      rewrite (add_contact_present w name phone extra record r Hget Hr).
      destruct (truthy phone); [destruct (Phone.validate phone)|]; eauto.
      eexists _, _. split; [done|]. by apply wf_update.
    + unfold answers, add_contact, input_error, AddressBook.find,
        AddressBook.add_record, RecordM.init, RecordM.add_phone, Name.init.
      unfold_M. simpl. rewrite Hget. simpl.
      destruct name as [|c name]; simpl; [eauto|].
      unfold deref, alloc. simpl. rewrite lookup_app_r by done.
      rewrite Nat.sub_diag. simpl.
      pose proof (wf_alloc_set w (c :: name)
                    (Rec.mk (mkField (c :: name)) [] None) Hwf) as Hwf'.
      destruct (truthy phone); [|eauto].
      rewrite Phone_init_cases. destruct (Phone.validate phone); [|eauto].
      unfold update. simpl. rewrite lookup_app_r by done.
      rewrite Nat.sub_diag. simpl.
      eexists _, _. split; [done|]. by apply (wf_update _ _ _ Hwf').
Qed.

Lemma change_phone_answers (args : list str) (w : world) :
  wf w -> answers (change_phone args) w.
Proof.
  intros Hwf.
  destruct args as [|name [|old [|new [|? ?]]]]; try by eapply answers_intro.
  unfold answers, change_phone, input_error, AddressBook.find.
  unfold_M. simpl.
  destruct (dict_get name (data w)) as [record|] eqn:Hget; simpl; [|eauto].
  destruct (wf_lookup w name record Hwf Hget) as [r Hr].
  rewrite (edit_phone_eq record r old new w Hr).
  destruct (first_index old (Rec.phones r)); [|eauto].
  destruct (Phone.validate new); [|eauto].
  eexists _, _. split; [done|]. by apply wf_update.
Qed.

Lemma show_phones_answers (args : list str) (w : world) :
  wf w -> answers (show_phones args) w.
Proof.
  intros Hwf. destruct args as [|name ?]; [by eapply answers_intro|].
  unfold answers, show_phones, input_error, AddressBook.find.
  unfold_M. simpl.
  destruct (dict_get name (data w)) as [record|] eqn:Hget; simpl; [|eauto].
  destruct (wf_lookup w name record Hwf Hget) as [r Hr].
  rewrite (deref_Some record r w Hr). eauto.
Qed.

Lemma add_birthday_answers (args : list str) (w : world) :
  wf w -> answers (add_birthday args) w.
Proof.
  intros Hwf.
  destruct args as [|name [|birthday [|? ?]]]; try by eapply answers_intro.
  unfold answers, add_birthday, input_error, AddressBook.find,
    RecordM.add_birthday, Birthday.init.
  unfold_M. simpl.
  destruct (dict_get name (data w)) as [record|] eqn:Hget; simpl; [|eauto].
  destruct (wf_lookup w name record Hwf Hget) as [r Hr].
  destruct (strptime_dmY birthday); simpl; [|eauto].
  rewrite (update_Some record r _ w Hr).
  eexists _, _. split; [done|]. by apply wf_update.
Qed.

Lemma show_birthday_answers (e : env) (args : list str) (w : world) :
  wf w -> answers (show_birthday e args) w.
Proof.
  intros Hwf. destruct args as [|name ?]; [by eapply answers_intro|].
  unfold answers, show_birthday, input_error, AddressBook.find.
  unfold_M. simpl.
  destruct (dict_get name (data w)) as [record|] eqn:Hget; simpl; [|eauto].
  destruct (wf_lookup w name record Hwf Hget) as [r Hr].
  rewrite (deref_Some record r w Hr). destruct (Rec.birthday r); eauto.
Qed.

Lemma delete_contact_answers (args : list str) (w : world) :
  wf w -> answers (delete_contact args) w.
Proof.
  intros Hwf. destruct args as [|name ?]; [by eapply answers_intro|].
  unfold answers, delete_contact, input_error, AddressBook.delete.
  unfold_M. simpl.
  destruct (dict_get name (data w)) as [record|] eqn:Hget; simpl; [|eauto].
  eexists _, _. split; [done|]. by apply wf_del.
Qed.

(** ** The loop of get_upcoming_birthdays *)

Definition has_birthday (w : world) (record : ref) : Prop :=
  exists r b, heap w !! record = Some r /\ Rec.birthday r = Some b.

Lemma date_new_Raise (y m d : Z) (e : exn) :
  date_new y m d = Raise e -> exists msg, e = ValueError msg.
Proof.
  unfold date_new.
  destruct (year_ok y), (month_ok m), (day_ok y m d); simpl;
    try done; intros [= <-]; eauto.
Qed.

Lemma next_birthday_Raise (today birthday : date) (e : exn) :
  next_birthday today birthday = Raise e -> exists msg, e = ValueError msg.
Proof.
  unfold next_birthday, replace_year.
  destruct (date_new (year today) _ _) as [nb|e'] eqn:E1.
  - destruct (date_ltb nb today); [|done]. apply date_new_Raise.
  - intros [= <-]. by apply date_new_Raise in E1.
Qed.

(** Whatever the birthdays are, the loop ends with a list of records that
    have a birthday, or with a [ValueError]; the store is as before. *)
Lemma upcoming_loop_outcome (today next_week : date) (w : world) :
  forall records acc,
  Forall (fun record => (record < length (heap w))%nat) records ->
  Forall (has_birthday w) acc ->
  (exists l, upcoming_loop today next_week records acc w = Some (Return l, w) /\
             Forall (has_birthday w) l) \/
  (exists msg, upcoming_loop today next_week records acc w
               = Some (Raise (ValueError msg), w)).
Proof.
  induction records as [|record records IH]; intros acc Hrecs Hacc; simpl.
  - left. by exists acc.
  - apply Forall_cons in Hrecs as [Hrec Hrecs].
    apply lookup_lt_is_Some_2 in Hrec as [r Hr].
    rewrite (bind_Return _ _ w w r) by by apply deref_Some.
    destruct (Rec.birthday r) as [b|] eqn:Hb; [|by apply IH].
    unfold_M. destruct (next_birthday today (value b)) as [nb|e] eqn:Hnb.
    + destruct (date_leb today nb && date_leb nb next_week); [|by apply IH].
      apply IH; [done|]. apply Forall_app. split; [done|].
      repeat constructor. by exists r, b.
    + right. apply next_birthday_Raise in Hnb as [msg ->]. eauto.
Qed.

Lemma birthday_lines_Return (e : env) (w : world) (l : list ref) :
  Forall (has_birthday w) l ->
  exists ls, birthday_lines e l w = Some (Return ls, w).
Proof.
  induction l as [|record l IH]; simpl; [by eexists|].
  intros [(r & b & Hr & Hb) Hl]%Forall_cons. destruct (IH Hl) as [ls Hls].
  unfold birthday_line. unfold_M. rewrite (deref_Some record r w Hr), Hb, Hls.
  eauto.
Qed.

Lemma birthdays_answers (e : env) (args : list str) (w : world) :
  wf w -> is_Return (date_add_days (today e) 7) = true ->
  answers (birthdays e args) w.
Proof.
  intros Hwf Hclock. unfold answers, birthdays, input_error, get_upcoming_birthdays.
  destruct (date_add_days (today e) 7) as [next_week|] eqn:Hnw; [|done].
  unfold_M. simpl.
  destruct (upcoming_loop_outcome (today e) next_week w (dict_values (data w)) [])
    as [(l & -> & Hl) | (msg & ->)]; [done | done | | eauto].
  destruct l as [|record l]; [eauto|].
  destruct (birthday_lines_Return e w (record :: l) Hl) as [ls ->]. eauto.
Qed.

(** ** What the commands answer *)

(** What a command says after an operation inside it has ended with [o]:
    [ok] when the operation returned, [str(e)] when it raised [e]. *)
Definition said {A} (ok : str) (o : outcome A) : str :=
  match o with
  | Return _ => ok
  | Raise ex => exn_str ex
  end.

Lemma unpack_2_star_Return (args : list str) (a b : str) :
  unpack_2_star args = Return (a, b) -> exists extra, args = a :: b :: extra.
Proof. destruct args as [|? [|? ?]]; intros [=]; subst; eauto. Qed.

Lemma unpack_2_Return (args : list str) (a b : str) :
  unpack_2 args = Return (a, b) -> args = [a; b].
Proof. destruct args as [|? [|? [|? ?]]]; intros [=]; by subst. Qed.

Lemma unpack_3_Return (args : list str) (a b c : str) :
  unpack_3 args = Return (a, b, c) -> args = [a; b; c].
Proof. destruct args as [|? [|? [|? [|? ?]]]]; intros [=]; by subst. Qed.

Lemma index_0_Return (args : list str) (a : str) :
  index_0 args = Return a -> exists extra, args = a :: extra.
Proof. destruct args; intros [=]; subst; eauto. Qed.

(** The operations on a record and on the book raise nothing but
    [ValueError]. *)
Lemma init_Raise (name : str) (w w' : world) (ex : exn) :
  RecordM.init name w = Some (Raise ex, w') -> exists msg, ex = ValueError msg.
Proof.
  unfold RecordM.init, Name.init, alloc. unfold_M.
  destruct (truthy name); simpl; intros [=]; subst; eauto.
Qed.

Lemma add_phone_Raise (record : ref) (phone : str) (w w' : world) (ex : exn) :
  RecordM.add_phone record phone w = Some (Raise ex, w') ->
  exists msg, ex = ValueError msg.
Proof.
  unfold RecordM.add_phone, update. unfold_M. rewrite Phone_init_cases.
  destruct (Phone.validate phone); simpl.
  - by destruct (heap w !! record).
  - intros [=]; subst. by eexists.
Qed.

Lemma edit_phone_Raise (record : ref) (old new : str) (w w' : world) (ex : exn) :
  RecordM.edit_phone record old new w = Some (Raise ex, w') ->
  exists msg, ex = ValueError msg.
Proof.
  unfold RecordM.edit_phone, deref. unfold_M.
  destruct (heap w !! record) as [r|] eqn:Hr; [|done].
  rewrite edit_phone_loop_spec.
  destruct (first_index old (Rec.phones r)); [|intros [=]; subst; by eexists].
  rewrite Phone_init_cases. destruct (Phone.validate new).
  - unfold update. by rewrite Hr.
  - intros [=]; subst. by eexists.
Qed.

Lemma add_birthday_Raise (record : ref) (birthday : str) (w w' : world) (ex : exn) :
  RecordM.add_birthday record birthday w = Some (Raise ex, w') ->
  exists msg, ex = ValueError msg.
Proof.
  unfold RecordM.add_birthday, Birthday.init, update. unfold_M.
  destruct (strptime_dmY birthday); simpl.
  - by destruct (heap w !! record).
  - intros [=]; subst. by eexists.
Qed.

Lemma delete_Raise (name : str) (w w' : world) (ex : exn) :
  AddressBook.delete name w = Some (Raise ex, w') -> exists msg, ex = ValueError msg.
Proof.
  unfold AddressBook.delete. unfold_M. simpl.
  destruct (dict_get name (data w)); intros [=]; subst. by eexists.
Qed.

(** A command that ends with an operation [m] and the answer [ok]. *)
Lemma input_error_said {A} (m : M A) (ok : str) (w w' : world) (o : outcome A) :
  m w = Some (o, w') ->
  (forall ex, o = Raise ex -> exists msg, ex = ValueError msg) ->
  input_error (m ≫= fun _ => mret ok) w = Some (Return (said ok o), w').
Proof.
  intros H Hc. unfold input_error. unfold_M. rewrite H.
  destruct o as [a|ex]; [done|]. by destruct (Hc ex eq_refl) as [msg ->].
Qed.

Lemma date_add_days_Raise (d : date) (n : nat) :
  is_Return (date_add_days d n) = false ->
  date_add_days d n = Raise (OverflowError (lit "date value out of range")).
Proof.
  unfold date_add_days. by destruct (year (plus_days d n) <=? MAXYEAR).
Qed.

(** C7, as the code has it.  On the store of a run, whatever the arguments:
    - [add_contact], [change_phone], [show_phones], [add_birthday],
      [show_birthday] and [delete_contact] end with a string, and no
      exception leaves them;
    - so does [birthdays] when the day a week after today exists (today is
      24.12.9999 at the latest); after that day it raises
      [OverflowError("date value out of range")], which the decorator does
      not catch;
    - the string is the text of the error: when unpacking or indexing the
      arguments raises [ex], every command answers [str(ex)]; when the name
      is not in the book, [change_phone], [add_birthday], [show_phones] and
      [show_birthday] answer "Contact not found."; when the operation on the
      record or on the book ([edit_phone], [add_birthday], [delete],
      [Record(name)], [add_phone]) ends with [o], the command answers its
      own text of success when [o] is a return and [str(ex)] when [o] is the
      exception [ex], and the store is the one the operation left; when
      [get_upcoming_birthdays] raises [ValueError(msg)], [birthdays] answers
      [msg]. *)
Theorem commands_answer (e : env) (args : list str) (w : world) :
  wf w ->
  (answers (add_contact args) w /\
   answers (change_phone args) w /\
   answers (show_phones args) w /\
   answers (add_birthday args) w /\
   answers (show_birthday e args) w /\
   answers (delete_contact args) w) /\
  (if is_Return (date_add_days (today e) 7) then answers (birthdays e args) w
   else birthdays e args w
        = Some (Raise (OverflowError (lit "date value out of range")), w)) /\
  (forall ex, unpack_2_star args = Raise ex ->
     add_contact args w = Some (Return (exn_str ex), w)) /\
  (forall ex, unpack_3 args = Raise ex ->
     change_phone args w = Some (Return (exn_str ex), w)) /\
  (forall ex, unpack_2 args = Raise ex ->
     add_birthday args w = Some (Return (exn_str ex), w)) /\
  (forall ex, index_0 args = Raise ex ->
     show_phones args w = Some (Return (exn_str ex), w) /\
     show_birthday e args w = Some (Return (exn_str ex), w) /\
     delete_contact args w = Some (Return (exn_str ex), w)) /\
  (forall name old new,
     unpack_3 args = Return (name, old, new) -> dict_get name (data w) = None ->
     change_phone args w = Some (Return (lit "Contact not found."), w)) /\
  (forall name birthday,
     unpack_2 args = Return (name, birthday) -> dict_get name (data w) = None ->
     add_birthday args w = Some (Return (lit "Contact not found."), w)) /\
  (forall name,
     index_0 args = Return name -> dict_get name (data w) = None ->
     show_phones args w = Some (Return (lit "Contact not found."), w) /\
     show_birthday e args w = Some (Return (lit "Contact not found."), w)) /\
  (forall name old new record o w',
     unpack_3 args = Return (name, old, new) ->
     dict_get name (data w) = Some record ->
     RecordM.edit_phone record old new w = Some (o, w') ->
     change_phone args w
     = Some (Return (said (lit "Phone number updated.") o), w')) /\
  (forall name birthday record o w',
     unpack_2 args = Return (name, birthday) ->
     dict_get name (data w) = Some record ->
     RecordM.add_birthday record birthday w = Some (o, w') ->
     add_birthday args w = Some (Return (said (lit "Birthday added.") o), w')) /\
  (forall name o w',
     index_0 args = Return name ->
     AddressBook.delete name w = Some (o, w') ->
     delete_contact args w = Some (Return (said (lit "Contact deleted.") o), w')) /\
  (forall name phone record o w',
     unpack_2_star args = Return (name, phone) ->
     dict_get name (data w) = Some record -> truthy phone = true ->
     RecordM.add_phone record phone w = Some (o, w') ->
     add_contact args w = Some (Return (said (lit "Contact updated.") o), w')) /\
  (forall name phone ex w',
     unpack_2_star args = Return (name, phone) ->
     dict_get name (data w) = None ->
     RecordM.init name w = Some (Raise ex, w') ->
     add_contact args w = Some (Return (exn_str ex), w')) /\
  (forall name phone record w1 w2 o w3,
     unpack_2_star args = Return (name, phone) ->
     dict_get name (data w) = None ->
     RecordM.init name w = Some (Return record, w1) ->
     AddressBook.add_record record w1 = Some (Return tt, w2) ->
     truthy phone = true ->
     RecordM.add_phone record phone w2 = Some (o, w3) ->
     add_contact args w = Some (Return (said (lit "Contact added.") o), w3)) /\
  (forall msg w',
     get_upcoming_birthdays (today e) w = Some (Raise (ValueError msg), w') ->
     birthdays e args w = Some (Return msg, w')).
Proof.
  intros Hwf. split_and!.
  - by apply add_contact_answers.
  - by apply change_phone_answers.
  - by apply show_phones_answers.
  - by apply add_birthday_answers.
  - by apply show_birthday_answers.
  - by apply delete_contact_answers.
  - destruct (is_Return (date_add_days (today e) 7)) eqn:Hclock.
    + by apply birthdays_answers.
    + unfold birthdays, input_error, get_upcoming_birthdays. unfold_M.
      by rewrite (date_add_days_Raise _ _ Hclock).
  - intros ex. destruct args as [|? [|? ?]]; intros [= <-]; done.
  - intros ex. destruct args as [|? [|? [|? [|? ?]]]]; intros [= <-]; done.
  - intros ex. destruct args as [|? [|? [|? ?]]]; intros [= <-]; done.
  - intros ex. destruct args; intros [= <-]; done.
  - intros name old new ->%unpack_3_Return Hget.
    unfold change_phone, input_error, AddressBook.find. unfold_M. simpl.
    by rewrite Hget.
  - intros name birthday ->%unpack_2_Return Hget.
    unfold add_birthday, input_error, AddressBook.find. unfold_M. simpl.
    by rewrite Hget.
  - intros name [extra ->]%index_0_Return Hget.
    unfold show_phones, show_birthday, input_error, AddressBook.find.
    unfold_M. simpl. by rewrite Hget.
  - intros name old new record o w' ->%unpack_3_Return Hget Ho.
    rewrite <- (input_error_said _ _ w w' o Ho)
      by (intros ex ->; by eapply edit_phone_Raise).
    unfold change_phone, input_error, AddressBook.find. unfold_M. simpl.
    by rewrite Hget.
  - intros name birthday record o w' ->%unpack_2_Return Hget Ho.
    rewrite <- (input_error_said _ _ w w' o Ho)
      by (intros ex ->; by eapply add_birthday_Raise).
    unfold add_birthday, input_error, AddressBook.find. unfold_M. simpl.
    by rewrite Hget.
  - intros name o w' [extra ->]%index_0_Return Ho.
    rewrite <- (input_error_said _ _ w w' o Ho)
      by (intros ex ->; by eapply delete_Raise).
    unfold delete_contact, input_error. unfold_M. simpl. done.
  - intros name phone record o w' [extra ->]%unpack_2_star_Return Hget Ht Ho.
    rewrite <- (input_error_said _ _ w w' o Ho)
      by (intros ex ->; by eapply add_phone_Raise).
    unfold add_contact, input_error, AddressBook.find. unfold_M. simpl.
    by rewrite Hget, Ht.
  - intros name phone ex w' [extra ->]%unpack_2_star_Return Hget Hinit.
    destruct (init_Raise _ _ _ _ Hinit) as [msg ->].
    unfold add_contact, input_error, AddressBook.find. unfold_M. simpl.
    by rewrite Hget, Hinit.
  - intros name phone record w1 w2 o w3 [extra ->]%unpack_2_star_Return
      Hget Hinit Hadd Ht Ho.
    rewrite <- (input_error_said _ _ w2 w3 o Ho)
      by (intros ex ->; by eapply add_phone_Raise).
    unfold add_contact, input_error, AddressBook.find. unfold_M. simpl.
    by rewrite Hget, Hinit, Hadd, Ht.
  - intros msg w' H. unfold birthdays, input_error. unfold_M. by rewrite H.
Qed.

(** Contact A with a birthday on 12 June, contact L with one on 29
    February. *)
Definition rec_L : Rec.t :=
  Rec.mk (mkField (lit "L")) [] (Some (mkField (mkdate 2000 2 29))).
Definition world_AL : world :=
  mkWorld [rec_A_birthday; rec_L] [(lit "A", O); (lit "L", 1%nat)].
Definition env_2023 : env := mkEnv (mkdate 2023 6 10) false.

Lemma wf_world_AL : wf world_AL.
Proof. unfold wf. simpl. repeat constructor. Qed.

Lemma commands_answer_witness :
  answers (change_phone [lit "A"; lit "1111111111"; lit "12345"]) world_AL /\
  change_phone [lit "A"; lit "1111111111"; lit "12345"] world_AL
  = Some (Return (lit "Invalid phone number format."), world_AL) /\
  birthdays env_2023 [] world_AL
  = Some (Return (lit "day is out of range for month"), world_AL).
Proof.
  destruct (commands_answer env_2023 [lit "A"; lit "1111111111"; lit "12345"]
              world_AL)
    as ((_ & Hanswers & _) & _ & _ & _ & _ & _ & _ & _ & _ & Hedit & _).
  { unfold wf. simpl. repeat constructor. }
  destruct (commands_answer env_2023 [] world_AL)
    as (_ & _ & _ & _ & _ & _ & _ & _ & _ & _ & _ & _ & _ & _ & _ & Hquery).
  { unfold wf. simpl. repeat constructor. }
  split_and!.
  - exact Hanswers.
  - apply (Hedit (lit "A") (lit "1111111111") (lit "12345") O
             (Raise invalid_phone) world_AL); reflexivity.
  - apply (Hquery (lit "day is out of range for month") world_AL). reflexivity.
Defined.

(** What the commands answer on some arguments. *)
Example commands_example :
  add_contact [lit "L"; lit "12345"] world_AL
    = Some (Return (lit "Invalid phone number format."), world_AL) /\
  add_birthday [lit "L"; lit "12345"] world_AL
    = Some (Return (lit "Invalid date format. Use DD.MM.YYYY"), world_AL) /\
  change_phone [lit "L"; lit "12345"] world_AL
    = Some (Return (lit "not enough values to unpack (expected 3, got 2)"),
            world_AL) /\
  show_phones [] world_AL = Some (Return (lit "list index out of range"), world_AL) /\
  delete_contact [lit "Z"] world_AL
    = Some (Return (lit "Record not found."), world_AL) /\
  birthdays env_2023 [] world_AL
    = Some (Return (lit "day is out of range for month"), world_AL).
Proof. repeat split. Qed.

(** C7 does not hold as stated in one point: on 25.12.9999, on the store of
    a run, [birthdays] does not return a string; the [OverflowError] of
    [today + timedelta(days=7)] leaves it, as the decorator catches
    [ValueError] and [IndexError] only. *)
Lemma birthdays_overflow_ce :
  wf world_AL /\
  birthdays (mkEnv (mkdate 9999 12 25) false) [] world_AL
  = Some (Raise (OverflowError (lit "date value out of range")), world_AL).
Proof. split; [|reflexivity]. unfold wf. simpl. repeat constructor. Qed.

(** ** The upcoming birthdays, as the specification tells them *)

(** The anniversary: the birthday in the year of today, or in the year
    after when that day is before today. *)
Definition anniversary (today birthday : date) : date :=
  let a := mkdate (year today) (month birthday) (day birthday) in
  if date_ltb a today then mkdate (year today + 1) (month birthday) (day birthday)
  else a.

(** The anniversary lies between today and the day a week later. *)
Definition in_window (today a : date) : bool :=
  date_leb today a && date_leb a (plus_days today 7).

Definition is_upcoming (w : world) (today : date) (record : ref) : bool :=
  match heap w !! record with
  | Some r =>
      match Rec.birthday r with
      | Some b => in_window today (anniversary today (value b))
      | None => false
      end
  | None => false
  end.

(** The records the query is to give, in the order of the book. *)
Definition upcoming_spec (today : date) (w : world) : list ref :=
  List.filter (is_upcoming w today) (dict_values (data w)).

Lemma replace_year_Return (d : date) (y : Z) (x : date) :
  replace_year d y = Return x -> x = mkdate y (month d) (day d).
Proof. unfold replace_year. by intros [_ ->]%date_new_Return. Qed.

Lemma next_birthday_Return (today birthday nb : date) :
  next_birthday today birthday = Return nb -> nb = anniversary today birthday.
Proof.
  unfold next_birthday, anniversary.
  destruct (replace_year birthday (year today)) as [a|] eqn:E; [|done].
  apply replace_year_Return in E as ->.
  destruct (date_ltb _ today); [|by intros [= <-]].
  by intros ->%replace_year_Return.
Qed.

(** When no anniversary fails, the loop adds the upcoming records to what
    it has. *)
Lemma upcoming_loop_Return (today next_week : date) (w : world) :
  next_week = plus_days today 7 ->
  forall records acc,
  Forall (fun record => forall r b,
            heap w !! record = Some r -> Rec.birthday r = Some b ->
            is_Return (next_birthday today (value b)) = true) records ->
  Forall (fun record => (record < length (heap w))%nat) records ->
  upcoming_loop today next_week records acc w =
  Some (Return (acc ++ List.filter (is_upcoming w today) records), w).
Proof.
  intros Hnw. induction records as [|record records IH]; intros acc Hok Hrecs;
    cbn [upcoming_loop List.filter].
  - by rewrite app_nil_r.
  - apply Forall_cons in Hok as [Hok1 Hok]. apply Forall_cons in Hrecs as [Hrec Hrecs].
    apply lookup_lt_is_Some_2 in Hrec as [r Hr].
    rewrite (bind_Return _ _ w w r) by by apply deref_Some.
    unfold is_upcoming at 1. rewrite Hr.
    destruct (Rec.birthday r) as [b|] eqn:Hb; [|by apply IH].
    specialize (Hok1 r b Hr Hb). unfold_M.
    destruct (next_birthday today (value b)) as [nb|] eqn:Hnb; [|done].
    apply next_birthday_Return in Hnb as ->. unfold in_window. rewrite <- Hnw.
    destruct (_ && _); [|by apply IH].
    rewrite IH by done. by rewrite <- app_assoc.
Qed.

(** A birthday whose anniversary fails makes the loop raise. *)
Lemma upcoming_loop_Raise (today next_week : date) (w : world) :
  forall records acc,
  Forall (fun record => (record < length (heap w))%nat) records ->
  Exists (fun record => exists r b,
            heap w !! record = Some r /\ Rec.birthday r = Some b /\
            is_Return (next_birthday today (value b)) = false) records ->
  exists msg, upcoming_loop today next_week records acc w
              = Some (Raise (ValueError msg), w).
Proof.
  induction records as [|record records IH]; intros acc Hrecs Hbad; simpl.
  - by apply Exists_nil in Hbad.
  - apply Forall_cons in Hrecs as [Hrec Hrecs].
    apply lookup_lt_is_Some_2 in Hrec as [r Hr].
    rewrite (bind_Return _ _ w w r) by by apply deref_Some.
    apply Exists_cons in Hbad as [(r' & b & Hr' & Hb & Hnb)|Hbad].
    + rewrite Hr in Hr'. injection Hr' as <-. rewrite Hb. unfold_M.
      destruct (next_birthday today (value b)) as [|e] eqn:E; [done|].
      apply next_birthday_Raise in E as [msg ->]. eauto.
    + destruct (Rec.birthday r) as [b|]; [|by apply IH].
      unfold_M. destruct (next_birthday today (value b)) as [nb|e] eqn:E.
      * destruct (_ && _); by apply IH.
      * apply next_birthday_Raise in E as [msg ->]. eauto.
Qed.

(** A birthday on 29 February has no anniversary in a year that is not a
    leap year. *)
Lemma next_birthday_leap_day (today birthday : date) :
  month birthday = 2 -> day birthday = 29 ->
  is_leap (year today) = false \/ is_leap (year today + 1) = false /\
    date_ltb (mkdate (year today) 2 29) today = true ->
  is_Return (next_birthday today birthday) = false.
Proof.
  intros Hm Hd H. unfold next_birthday, replace_year, date_new. rewrite Hm, Hd.
  destruct (year_ok (year today)); simpl; [|done].
  unfold day_ok, days_in_month. simpl.
  destruct H as [-> | [H1 H2]]; simpl; [done|].
  destruct (is_leap (year today)); simpl; [|done].
  rewrite H2. destruct (year_ok (year today + 1)); simpl; [|done].
  by rewrite H1.
Qed.

Lemma date_add_days_Return (d : date) (n : nat) :
  is_Return (date_add_days d n) = true ->
  date_add_days d n = Return (plus_days d n).
Proof.
  unfold date_add_days. by destruct (year (plus_days d n) <=? MAXYEAR).
Qed.

(** When the day a week after today exists and no anniversary fails, the
    query gives exactly the records that have a birthday whose anniversary
    lies between today and that day, in the order of the book, and leaves
    the store as it is. *)
Theorem get_upcoming_birthdays_spec (today : date) (w : world) :
  wf w ->
  is_Return (date_add_days today 7) = true ->
  (forall record r b,
     record ∈ dict_values (data w) ->
     heap w !! record = Some r -> Rec.birthday r = Some b ->
     is_Return (next_birthday today (value b)) = true) ->
  get_upcoming_birthdays today w = Some (Return (upcoming_spec today w), w) /\
  (forall record,
     record ∈ upcoming_spec today w <->
     record ∈ dict_values (data w) /\
     exists r b, heap w !! record = Some r /\ Rec.birthday r = Some b /\
                 in_window today (anniversary today (value b)) = true).
Proof.
  intros Hwf Hclock Hok. split.
  - unfold get_upcoming_birthdays.
    rewrite (bind_Return _ _ w w (plus_days today 7))
      by (unfold lift; by rewrite (date_add_days_Return today 7 Hclock)).
    rewrite (bind_Return _ _ w w (data w)) by done.
    apply (upcoming_loop_Return today (plus_days today 7) w eq_refl).
    + apply Forall_forall. intros record Hin r b. by apply Hok.
    + exact Hwf.
  - intros record. unfold upcoming_spec.
    rewrite list_elem_of_In, filter_In, <- list_elem_of_In. unfold is_upcoming.
    split.
    + intros [Hin H]. split; [done|].
      destruct (heap w !! record) as [r|]; [|done].
      destruct (Rec.birthday r) as [b|] eqn:Hb; [|done]. by exists r, b.
    + intros [Hin (r & b & -> & -> & H)]. done.
Qed.

Lemma days_in_month_any_year (y y' m d : Z) :
  ~ (m = 2 /\ d = 29) -> d <= days_in_month y m -> d <= days_in_month y' m.
Proof.
  unfold days_in_month. destruct (m =? 2) eqn:E; [|done].
  apply Z.eqb_eq in E. destruct (is_leap y), (is_leap y'); lia.
Qed.

(** A birthday on a day that every year has, in a year up to 9998, has its
    anniversary. *)
Lemma next_birthday_total (today birthday : date) :
  valid_date birthday = true ->
  ~ (month birthday = 2 /\ day birthday = 29) ->
  1 <= year today <= 9998 ->
  is_Return (next_birthday today birthday) = true.
Proof.
  intros Hv Hleap Hy. unfold next_birthday, replace_year.
  assert (forall y, 1 <= y <= 9999 ->
            date_new y (month birthday) (day birthday)
            = Return (mkdate y (month birthday) (day birthday))) as Hnew.
  { intros y Hy'. apply date_new_Return. split; [|done].
    unfold valid_date in *. simpl.
    apply andb_true_iff in Hv as [[_ Hm]%andb_true_iff Hd].
    unfold day_ok in *. apply andb_true_iff in Hd as [Hd1 Hd2%Z.leb_le].
    rewrite Hm, Hd1. unfold year_ok, MINYEAR, MAXYEAR. simpl.
    assert ((1 <=? y) = true) as -> by (apply Z.leb_le; lia).
    assert ((y <=? 9999) = true) as -> by (apply Z.leb_le; lia).
    simpl. apply Z.leb_le. by apply (days_in_month_any_year (year birthday)). }
  rewrite Hnew by lia. destruct (date_ltb _ today); [|done].
  simpl. by rewrite Hnew by lia.
Qed.

(** The book of the specification's scenario on 10.06.2024: A was born on
    12.06.1990, B on 01.01.1990, C has no birthday. *)
Definition world_ABC : world :=
  mkWorld [rec_A_birthday;
           Rec.mk (mkField (lit "B")) [] (Some (mkField (mkdate 1990 1 1)));
           Rec.mk (mkField (lit "C")) [] None]
          [(lit "A", O); (lit "B", 1%nat); (lit "C", 2%nat)].

Lemma get_upcoming_birthdays_spec_witness :
  get_upcoming_birthdays (mkdate 2024 6 10) world_ABC
    = Some (Return (upcoming_spec (mkdate 2024 6 10) world_ABC), world_ABC) /\
  (forall record,
     record ∈ upcoming_spec (mkdate 2024 6 10) world_ABC <->
     record ∈ dict_values (data world_ABC) /\
     exists r b, heap world_ABC !! record = Some r /\ Rec.birthday r = Some b /\
                 in_window (mkdate 2024 6 10)
                   (anniversary (mkdate 2024 6 10) (value b)) = true).
Proof.
  apply (get_upcoming_birthdays_spec (mkdate 2024 6 10) world_ABC).
  - unfold wf. simpl. repeat constructor.
  - reflexivity.
  - intros record r b Hin Hr Hb.
    destruct record as [|[|[|record]]]; simpl in Hr; try discriminate Hr;
      injection Hr as <-; try discriminate Hb; injection Hb as <-; reflexivity.
Defined.

Example upcoming_scenario :
  upcoming_spec (mkdate 2024 6 10) world_ABC = [O] /\
  get_upcoming_birthdays (mkdate 2024 6 10) world_ABC
    = Some (Return [O], world_ABC).
Proof. split; reflexivity. Qed.

Definition day_out_of_range : exn :=
  ValueError (lit "day is out of range for month").

(** C1 fails on the code: with a birthday on 29 February in the book and
    today in 2023, the query raises instead of giving contact A, whose
    anniversary, 12.06.2023, lies between 10.06.2023 and 17.06.2023. *)
Theorem get_upcoming_birthdays_leap_day_fails :
  upcoming_spec (mkdate 2023 6 10) world_AL = [O] /\
  get_upcoming_birthdays (mkdate 2023 6 10) world_AL
    = Some (Raise day_out_of_range, world_AL).
Proof. split; reflexivity. Qed.

(** Whenever the book holds a birthday on 29 February and the year of
    today is not a leap year, the query raises a [ValueError]. *)
Lemma leap_day_birthday_raises (today : date) (w : world) :
  wf w ->
  is_Return (date_add_days today 7) = true ->
  is_leap (year today) = false ->
  (exists record r b,
     record ∈ dict_values (data w) /\
     heap w !! record = Some r /\ Rec.birthday r = Some b /\
     month (value b) = 2 /\ day (value b) = 29) ->
  exists msg, get_upcoming_birthdays today w = Some (Raise (ValueError msg), w).
Proof.
  intros Hwf Hclock Hleap (record & r & b & Hin & Hr & Hb & Hm & Hd).
  unfold get_upcoming_birthdays.
  destruct (date_add_days today 7) as [next_week|]; [|done].
  unfold_M. simpl data. apply upcoming_loop_Raise; [done|].
  apply Exists_exists. exists record. split; [done|].
  exists r, b. repeat split; try done.
  apply next_birthday_leap_day; auto.
Qed.

Lemma leap_day_birthday_raises_witness :
  exists msg,
    get_upcoming_birthdays (mkdate 2023 6 10) world_AL
    = Some (Raise (ValueError msg), world_AL).
Proof.
  apply (leap_day_birthday_raises (mkdate 2023 6 10) world_AL).
  - unfold wf. simpl. repeat constructor.
  - reflexivity.
  - reflexivity.
  - exists 1%nat, rec_L, (mkField (mkdate 2000 2 29)).
    repeat split. simpl. apply list_elem_of_further, list_elem_of_here.
Defined.

(** C5: there are a book with a record whose birthday is 29 February and a
    day today, in a year that is not a leap year, for which the query
    raises the [ValueError] of [date.replace] and gives no result; and
    there are such a book and a day in a leap year, after 29 February, for
    which it is the year after, put in by the second [replace], that has no
    29 February. *)
Theorem get_upcoming_birthdays_not_total :
  (exists w today record r b,
     wf w /\
     dict_get (lit "L") (data w) = Some record /\
     heap w !! record = Some r /\ Rec.birthday r = Some b /\
     valid_date (value b) = true /\
     month (value b) = 2 /\ day (value b) = 29 /\
     valid_date today = true /\ is_leap (year today) = false /\
     replace_year (value b) (year today) = Raise day_out_of_range /\
     get_upcoming_birthdays today w = Some (Raise day_out_of_range, w)) /\
  (exists w today record r b nb,
     wf w /\
     dict_get (lit "L") (data w) = Some record /\
     heap w !! record = Some r /\ Rec.birthday r = Some b /\
     month (value b) = 2 /\ day (value b) = 29 /\
     valid_date today = true /\
     is_leap (year today) = true /\ is_leap (year today + 1) = false /\
     replace_year (value b) (year today) = Return nb /\
     date_ltb nb today = true /\
     replace_year nb (year today + 1) = Raise day_out_of_range /\
     get_upcoming_birthdays today w = Some (Raise day_out_of_range, w)).
Proof.
  split.
  - exists world_AL, (mkdate 2023 6 10), 1%nat, rec_L, (mkField (mkdate 2000 2 29)).
    repeat split. apply wf_world_AL.
  - exists world_AL, (mkdate 2024 6 10), 1%nat, rec_L, (mkField (mkdate 2000 2 29)),
           (mkdate 2024 2 29).
    repeat split. apply wf_world_AL.
Qed.

(** * The rest of the program *)

(** ** parse_input and the loop of main *)

(** The white space of [str.split()]: the characters for which
    [str.isspace] holds (Unicode 14.0). *)
Definition is_whitespace (c : char) : bool :=
  ((9 <=? c) && (c <=? 13)) || ((28 <=? c) && (c <=? 32))
  || (c =? 133) || (c =? 160) || (c =? 5760)
  || ((8192 <=? c) && (c <=? 8202))
  || (c =? 8232) || (c =? 8233) || (c =? 8239) || (c =? 8287) || (c =? 12288).

(** [s.split()] with the word [cur] begun: white space ends a word, and a
    word that is empty is not kept. *)
Fixpoint split_from (cur : str) (s : str) : list str :=
  match s with
  | [] => if truthy cur then [cur] else []
  | c :: t =>
      if is_whitespace c then
        if truthy cur then cur :: split_from [] t else split_from [] t
      else split_from (cur ++ [c]) t
  end.

Definition parse_input (user_input : str) : list str :=
  split_from [] user_input.

(** [command, *args = tokens]. *)
Definition unpack_1_star (tokens : list str) : outcome (str * list str) :=
  match tokens with
  | command :: args => Return (command, args)
  | [] => Raise (not_enough (lit "at least 1") (length tokens))
  end.

(** [str(record) for record in book.values()]. *)
Fixpoint record_strs (zp : bool) (records : list ref) : M (list str) :=
  match records with
  | [] => mret []
  | record :: rest =>
      r ← deref record;
      ls ← record_strs zp rest;
      mret (RecordM.to_str zp r :: ls)
  end.

(** [save_data(book)] opens the file addressbook.pkl for writing and
    pickles the book into it.  Whether that goes through is up to the file
    system, which is outside the program: for the book to write, a [disk]
    tells whether the file is written ([None]) or [open] or the write
    raises [OSError(msg)] ([Some msg]).  The book itself, names, phones and
    dates in records in a dictionary, is one that [pickle] can dump. *)
Definition disk : Type := world -> option str.

Definition save_data (dk : disk) : M unit := fun w =>
  match dk w with
  | None => Some (Return tt, w)
  | Some msg => Some (Raise (OSError msg), w)
  end.

(** What one turn of the loop does: it prints a line and goes on, or it
    saves the book, prints a line and leaves the loop.  The line is the
    argument of [print]; [print] and [input] are taken to do their work. *)
Inductive turn : Type :=
| Printed (line : str)
| Closed (line : str).

(** The chain of [if] and [elif] of the loop, for the command and its
    arguments. *)
Definition dispatch (dk : disk) (e : env) (command : str) (args : list str)
    : M turn :=
  if str_eqb command (lit "close") || str_eqb command (lit "exit") then
    save_data dk;;
    mret (Closed (lit "Good bye!"))
  else if str_eqb command (lit "hello") then
    mret (Printed (lit "How can I help you?"))
  else if str_eqb command (lit "add") then
    s ← add_contact args; mret (Printed s)
  else if str_eqb command (lit "change") then
    s ← change_phone args; mret (Printed s)
  else if str_eqb command (lit "phone") then
    s ← show_phones args; mret (Printed s)
  else if str_eqb command (lit "all") then
    d ← get_data;
    ls ← record_strs (zero_pad e) (dict_values d);
    mret (Printed (join [10] ls))
  else if str_eqb command (lit "add-birthday") then
    s ← add_birthday args; mret (Printed s)
  else if str_eqb command (lit "show-birthday") then
    s ← show_birthday e args; mret (Printed s)
  else if str_eqb command (lit "birthdays") then
    s ← birthdays e args; mret (Printed s)
  else if str_eqb command (lit "delete") then
    s ← delete_contact args; mret (Printed s)
  else mret (Printed (lit "Invalid command.")).

(** The body of the loop of [main] for one line of input. *)
Definition main_step (dk : disk) (e : env) (user_input : str) : M turn :=
  '(command, args) ← lift (unpack_1_star (parse_input user_input));
  dispatch dk e command args.

(** How a session ends: the loop was left by close or exit; an exception
    left [main]; or [input] found no line left. *)
Inductive session_end : Type :=
| Exited
| Crashed (e : exn)
| EndOfInput.

(** The loop of [main] over the lines that [input] gives, with what was
    printed so far. *)
Fixpoint main_loop (dk : disk) (e : env) (inputs : list str)
    (printed : list str) (w : world)
    : option (list str * session_end * world) :=
  match inputs with
  | [] => Some (printed, EndOfInput, w)
  | user_input :: rest =>
      match main_step dk e user_input w with
      | None => None
      | Some (Return (Printed s), w') => main_loop dk e rest (printed ++ [s]) w'
      | Some (Return (Closed s), w') => Some (printed ++ [s], Exited, w')
      | Some (Raise ex, w') => Some (printed, Crashed ex, w')
      end
  end.

(** [main] from the point where [load_data] has given the book. *)
Definition main (dk : disk) (e : env) (inputs : list str) (book : world)
    : option (list str * session_end * world) :=
  main_loop dk e inputs [lit "Welcome to the assistant bot!"] book.

(** ** parse_input *)

(** A word: it is not empty and holds no white space. *)
Definition is_word (t : str) : Prop :=
  t <> [] /\ Forall (fun c => is_whitespace c = false) t.

Lemma split_from_words (s : str) : forall cur,
  Forall (fun c => is_whitespace c = false) cur ->
  Forall is_word (split_from cur s).
Proof.
  induction s as [|c s IH]; intros cur Hcur; simpl.
  - destruct cur; simpl; [constructor|].
    constructor; [by split | constructor].
  - destruct (is_whitespace c) eqn:Hc.
    + destruct cur as [|c' cur]; simpl; [by apply IH|].
      constructor; [by split | by apply IH].
    + apply IH. apply Forall_app. split; [done | by repeat constructor].
Qed.

Lemma split_from_concat (s : str) : forall cur,
  concat (split_from cur s)
  = cur ++ List.filter (fun c => negb (is_whitespace c)) s.
Proof.
  induction s as [|c s IH]; intros cur; simpl.
  - destruct cur; simpl; [done|]. by rewrite !app_nil_r.
  - destruct (is_whitespace c); simpl.
    + destruct cur as [|c' cur]; simpl; by rewrite IH.
    + by rewrite IH, <- app_assoc.
Qed.

Lemma split_from_nil (s : str) : forall cur,
  split_from cur s = [] <-> cur = [] /\ Forall (fun c => is_whitespace c = true) s.
Proof.
  induction s as [|c s IH]; intros cur; simpl.
  - destruct cur; simpl; split; try done. by intros [? _].
  - rewrite Forall_cons. destruct (is_whitespace c) eqn:Hc.
    + destruct cur as [|c' cur]; simpl.
      * rewrite IH. tauto.
      * split; [done | by intros [? _]].
    + rewrite IH. split; [|by intros [_ [? _]]].
      intros [H _]. by destruct cur.
Qed.

Lemma split_from_word (t : str) : forall cur rest,
  Forall (fun c => is_whitespace c = false) t ->
  split_from cur (t ++ rest) = split_from (cur ++ t) rest.
Proof.
  induction t as [|c t IH]; intros cur rest Ht; simpl.
  - by rewrite app_nil_r.
  - apply Forall_cons in Ht as [-> Ht]. rewrite IH by done.
    by rewrite <- app_assoc.
Qed.

(** [parse_input] gives words; put one after the other they are the input
    without its white space; and there is no word exactly when the input
    is white space only, the empty input included. *)
Theorem parse_input_words (user_input : str) :
  Forall is_word (parse_input user_input) /\
  concat (parse_input user_input)
    = List.filter (fun c => negb (is_whitespace c)) user_input /\
  (parse_input user_input = [] <->
   Forall (fun c => is_whitespace c = true) user_input).
Proof.
  unfold parse_input. split; [|split].
  - by apply split_from_words.
  - by rewrite split_from_concat.
  - rewrite split_from_nil. tauto.
Qed.

(** Words joined by single spaces are split into the same words. *)
Theorem parse_input_join (tokens : list str) :
  Forall is_word tokens -> parse_input (join (lit " ") tokens) = tokens.
Proof.
  unfold parse_input. induction tokens as [|p tokens IH]; [done|].
  intros [[Hne Hp] Htokens]%Forall_cons. destruct tokens as [|q tokens].
  - simpl. rewrite <- (app_nil_r p) at 1. rewrite split_from_word by done.
    simpl. by destruct p.
  - change (join (lit " ") (p :: q :: tokens))
      with (p ++ lit " " ++ join (lit " ") (q :: tokens)).
    rewrite split_from_word by done. simpl app at 1.
    change (lit " " ++ ?x) with (32 :: x). cbn [split_from].
    change (is_whitespace 32) with true. cbv iota.
    destruct p as [|c p]; [done|]. cbn [truthy]. f_equal. by apply IH.
Qed.

Lemma parse_input_join_witness :
  parse_input (join (lit " ") [lit "add"; lit "John"; lit "1234567890"])
  = [lit "add"; lit "John"; lit "1234567890"].
Proof.
  apply (parse_input_join [lit "add"; lit "John"; lit "1234567890"]).
  repeat constructor; discriminate.
Defined.

(** ** Record.find_phone, Record.remove_phone and Record.add_phone *)

Lemma find_phone_eq (self : ref) (r : Rec.t) (phone : str) (w : world) :
  heap w !! self = Some r ->
  RecordM.find_phone self phone w =
  Some (Return (value <$> List.find (fun p => str_eqb (value p) phone) (Rec.phones r)),
        w).
Proof.
  intros Hr. unfold RecordM.find_phone.
  by rewrite (bind_Return _ _ w w r) by by apply deref_Some.
Qed.

Lemma find_value_Some (phone : str) (ps : list Phone.t) (x : str) :
  value <$> List.find (fun p => str_eqb (value p) phone) ps = Some x ->
  x = phone /\ exists p, p ∈ ps /\ value p = phone.
Proof.
  destruct (List.find (fun p => str_eqb (value p) phone) ps) as [p|] eqn:E;
    [|done].
  intros [= <-]. apply find_some in E as [Hin Hv%str_eqb_eq]. split; [done|].
  exists p. by rewrite list_elem_of_In.
Qed.

Lemma find_value_None (phone : str) (ps : list Phone.t) :
  value <$> List.find (fun p => str_eqb (value p) phone) ps = None <->
  Forall (fun p => value p <> phone) ps.
Proof.
  rewrite fmap_None, Forall_forall. split.
  - intros E p Hin Hv. apply list_elem_of_In in Hin.
    apply (find_none _ _ E) in Hin. simpl in Hin.
    by rewrite Hv, str_eqb_refl in Hin.
  - intros H.
    destruct (List.find (fun p => str_eqb (value p) phone) ps) as [p|] eqn:E;
      [|done].
    apply find_some in E as [Hin Hv%str_eqb_eq].
    by destruct (H p); [apply list_elem_of_In|].
Qed.

(** [find_phone(phone)] never fails and changes nothing; it gives [phone]
    back when some phone of the record has that value, and [None] when
    none has. *)
Theorem find_phone_spec (w : world) (self : ref) (r : Rec.t) (phone : str) :
  heap w !! self = Some r ->
  exists res,
    RecordM.find_phone self phone w = Some (Return res, w) /\
    (res = Some phone <-> exists p, p ∈ Rec.phones r /\ value p = phone) /\
    (res = None <-> Forall (fun p => value p <> phone) (Rec.phones r)) /\
    (res = Some phone \/ res = None).
Proof.
  intros Hr. rewrite (find_phone_eq self r phone w Hr).
  eexists. split; [done|].
  destruct (value <$> List.find (fun p => str_eqb (value p) phone) (Rec.phones r))
    as [x|] eqn:E.
  - apply find_value_Some in E as [-> (p & Hin & Hv)]. repeat split; eauto.
    + done.
    + intros H. rewrite Forall_forall in H. by destruct (H p Hin).
  - pose proof E as H%find_value_None. repeat split; eauto; try done.
    intros (p & Hin & Hv). rewrite Forall_forall in H. by destruct (H p Hin).
Qed.

Lemma find_phone_spec_witness :
  exists res,
    RecordM.find_phone O (lit "1111111111") world_A
      = Some (Return res, world_A) /\
    (res = Some (lit "1111111111") <->
       exists p, p ∈ Rec.phones rec_A /\ value p = lit "1111111111") /\
    (res = None <->
       Forall (fun p => value p <> lit "1111111111") (Rec.phones rec_A)) /\
    (res = Some (lit "1111111111") \/ res = None).
Proof.
  apply (find_phone_spec world_A O rec_A (lit "1111111111")). reflexivity.
Defined.

Lemma set_phones_same (r : Rec.t) : Rec.set_phones (Rec.phones r) r = r.
Proof. by destruct r. Qed.

Lemma filter_all (A : Type) (f : A -> bool) (l : list A) :
  Forall (fun x => f x = true) l -> List.filter f l = l.
Proof.
  induction l as [|x l IH]; simpl; [done|].
  intros [-> ?]%Forall_cons. f_equal. by apply IH.
Qed.

Lemma filter_filter_same (A : Type) (f : A -> bool) (l : list A) :
  List.filter f (List.filter f l) = List.filter f l.
Proof.
  apply filter_all, Forall_forall. intros x Hx.
  apply list_elem_of_In, filter_In in Hx. tauto.
Qed.

Definition other_phone (phone : str) (p : Phone.t) : bool :=
  negb (str_eqb (value p) phone).

Lemma remove_phone_eq (self : ref) (r : Rec.t) (phone : str) (w : world) :
  heap w !! self = Some r ->
  RecordM.remove_phone self phone w =
  Some (Return tt,
        mkWorld (<[self := Rec.set_phones
                             (List.filter (other_phone phone) (Rec.phones r)) r]>
                   (heap w)) (data w)).
Proof. intros Hr. unfold RecordM.remove_phone. by rewrite (update_Some self r). Qed.

(** [remove_phone(phone)] never fails.  It takes away every phone whose
    value is [phone] and keeps the other phones, in their order, with the
    name, the birthday, the other records and the book; afterwards
    [find_phone(phone)] gives [None]; when no phone has the value nothing
    changes; and removing a second time changes nothing more. *)
Theorem remove_phone_spec (w : world) (self : ref) (r : Rec.t) (phone : str) :
  heap w !! self = Some r ->
  exists w' r',
    RecordM.remove_phone self phone w = Some (Return tt, w') /\
    data w' = data w /\
    heap w' = <[self := r']> (heap w) /\
    Rec.name r' = Rec.name r /\ Rec.birthday r' = Rec.birthday r /\
    Rec.phones r' = List.filter (other_phone phone) (Rec.phones r) /\
    (forall p, p ∈ Rec.phones r' <-> p ∈ Rec.phones r /\ value p <> phone) /\
    RecordM.find_phone self phone w' = Some (Return None, w') /\
    (Forall (fun p => value p <> phone) (Rec.phones r) -> w' = w) /\
    RecordM.remove_phone self phone w' = Some (Return tt, w').
Proof.
  intros Hr. pose proof (lookup_lt_Some _ _ _ Hr) as Hlt.
  rewrite (remove_phone_eq self r phone w Hr).
  set (r' := Rec.set_phones (List.filter (other_phone phone) (Rec.phones r)) r).
  set (w' := mkWorld (<[self := r']> (heap w)) (data w)).
  assert (heap w' !! self = Some r') as Hr'.
  { simpl. by apply list_lookup_insert_eq. }
  assert (forall p, p ∈ Rec.phones r' <-> p ∈ Rec.phones r /\ value p <> phone)
    as Hmem.
  { intros p. simpl. rewrite list_elem_of_In, filter_In, <- list_elem_of_In.
    unfold other_phone. rewrite negb_true_iff, str_eqb_neq. done. }
  exists w', r'. split_and!; try done.
  - rewrite (find_phone_eq self r' phone w' Hr').
    assert (value <$> List.find (fun p => str_eqb (value p) phone) (Rec.phones r')
            = None) as ->; [|done].
    apply find_value_None, Forall_forall. intros p Hp%Hmem. tauto.
  - intros Hnone. unfold w', r'. rewrite filter_all.
    + rewrite set_phones_same, list_insert_id by done. by destruct w.
    + eapply Forall_impl; [done|]. intros p Hp. unfold other_phone.
      by rewrite negb_true_iff, str_eqb_neq.
  - rewrite (remove_phone_eq self r' phone w' Hr'). unfold w'. simpl.
    rewrite filter_filter_same, list_insert_insert_eq. done.
Qed.

(** Contact D has the phone 1111111111 twice, around 2222222222. *)
Definition rec_D : Rec.t :=
  Rec.mk (mkField (lit "D"))
         [mkField (lit "1111111111"); mkField (lit "2222222222");
          mkField (lit "1111111111")] None.
Definition world_D : world := mkWorld [rec_D] [(lit "D", O)].

Lemma remove_phone_spec_witness :
  exists w' r',
    RecordM.remove_phone O (lit "1111111111") world_D = Some (Return tt, w') /\
    data w' = data world_D /\
    heap w' = <[O := r']> (heap world_D) /\
    Rec.name r' = Rec.name rec_D /\ Rec.birthday r' = Rec.birthday rec_D /\
    Rec.phones r' = List.filter (other_phone (lit "1111111111")) (Rec.phones rec_D) /\
    (forall p, p ∈ Rec.phones r' <->
               p ∈ Rec.phones rec_D /\ value p <> lit "1111111111") /\
    RecordM.find_phone O (lit "1111111111") w' = Some (Return None, w') /\
    (Forall (fun p => value p <> lit "1111111111") (Rec.phones rec_D) ->
     w' = world_D) /\
    RecordM.remove_phone O (lit "1111111111") w' = Some (Return tt, w').
Proof.
  apply (remove_phone_spec world_D O rec_D (lit "1111111111")). reflexivity.
Defined.

Example remove_phone_example :
  RecordM.remove_phone O (lit "1111111111") world_D
  = Some (Return tt,
          mkWorld [Rec.mk (mkField (lit "D")) [mkField (lit "2222222222")] None]
                  [(lit "D", O)]).
Proof. reflexivity. Qed.

(** [add_phone(phone)] with a valid [phone] puts it after the phones of
    the record, whether the record has that phone already or not, and
    [find_phone(phone)] finds it afterwards; with a [phone] that is not
    valid it raises [ValueError("Invalid phone number format.")] and
    changes nothing. *)
Theorem add_phone_spec (w : world) (self : ref) (r : Rec.t) (phone : str) :
  heap w !! self = Some r ->
  (Phone.validate phone = true ->
   exists w',
     RecordM.add_phone self phone w = Some (Return tt, w') /\
     w' = mkWorld (<[self := Rec.mk (Rec.name r)
                               (Rec.phones r ++ [mkField phone])
                               (Rec.birthday r)]> (heap w)) (data w) /\
     RecordM.find_phone self phone w' = Some (Return (Some phone), w')) /\
  (Phone.validate phone = false ->
   RecordM.add_phone self phone w = Some (Raise invalid_phone, w)).
Proof.
  intros Hr. unfold RecordM.add_phone. unfold_M. rewrite Phone_init_cases.
  split; intros Hv; rewrite Hv; [|done].
  rewrite (update_Some self r _ w Hr). eexists. split; [done|]. split; [done|].
  erewrite find_phone_eq.
  2:{ simpl. apply list_lookup_insert_eq. by apply lookup_lt_Some in Hr. }
  simpl. do 3 f_equal.
  match goal with |- ?o = _ => destruct o as [x|] eqn:E end.
  - by apply find_value_Some in E as [-> _].
  - apply find_value_None in E. apply Forall_app in E as [_ E].
    by apply Forall_cons in E as [E _].
Qed.

Lemma add_phone_spec_witness :
  (Phone.validate (lit "1111111111") = true ->
   exists w',
     RecordM.add_phone O (lit "1111111111") world_A = Some (Return tt, w') /\
     w' = mkWorld (<[O := Rec.mk (Rec.name rec_A)
                            (Rec.phones rec_A ++ [mkField (lit "1111111111")])
                            (Rec.birthday rec_A)]> (heap world_A))
                  (data world_A) /\
     RecordM.find_phone O (lit "1111111111") w'
       = Some (Return (Some (lit "1111111111")), w')) /\
  (Phone.validate (lit "1111111111") = false ->
   RecordM.add_phone O (lit "1111111111") world_A
     = Some (Raise invalid_phone, world_A)).
Proof.
  apply (add_phone_spec world_A O rec_A (lit "1111111111")). reflexivity.
Defined.

(** ** AddressBook.delete *)

Definition keys (d : dict) : list str := map fst d.

Lemma dict_get_None (k : str) (d : dict) :
  dict_get k d = None <-> k ∉ keys d.
Proof.
  unfold keys. induction d as [|[k' v] d IH]; simpl.
  - split; [intros _ ?%elem_of_nil; done | done].
  - rewrite not_elem_of_cons. destruct (str_eqb k' k) eqn:E.
    + apply str_eqb_eq in E. split; [done | by intros [? _]].
    + apply str_eqb_neq in E. rewrite IH. split; [by intros ? | by intros [_ ?]].
Qed.

Lemma dict_get_del_ne (k k' : str) (d : dict) :
  k' <> k -> dict_get k' (dict_del k d) = dict_get k' d.
Proof.
  intros Hne. induction d as [|[k0 v0] d IH]; simpl; [done|].
  destruct (str_eqb k0 k) eqn:E; simpl.
  - apply str_eqb_eq in E as ->. apply not_eq_sym, str_eqb_neq in Hne.
    by rewrite Hne.
  - by rewrite IH.
Qed.

Lemma keys_del (k : str) (d : dict) :
  NoDup (keys d) -> forall k', k' ∈ keys (dict_del k d) <-> k' ∈ keys d /\ k' <> k.
Proof.
  unfold keys. induction d as [|[k0 v0] d IH]; simpl; intros Hnd k'.
  - split; [by intros ?%elem_of_nil | by intros [?%elem_of_nil _]].
  - apply NoDup_cons in Hnd as [Hk0 Hnd]. destruct (str_eqb k0 k) eqn:E; simpl.
    + apply str_eqb_eq in E as ->. rewrite elem_of_cons. split.
      * intros Hin. split; [by right|]. by intros ->.
      * intros [[->|Hin] Hne]; done.
    + apply str_eqb_neq in E. rewrite !elem_of_cons, IH by done. split.
      * intros [->|[? ?]]; [by split; [left|] | by split; [right|]].
      * intros [[->|?] ?]; [by left | by right].
Qed.

Lemma NoDup_keys_del (k : str) (d : dict) :
  NoDup (keys d) -> NoDup (keys (dict_del k d)).
Proof.
  unfold keys. induction d as [|[k0 v0] d IH]; simpl; [done|].
  intros [Hk0 Hnd]%NoDup_cons. destruct (str_eqb k0 k); simpl; [done|].
  apply NoDup_cons. split; [|by apply IH].
  intros Hin. apply (keys_del k d Hnd) in Hin. tauto.
Qed.

Lemma length_dict_del (k : str) (v : ref) (d : dict) :
  dict_get k d = Some v -> S (length (dict_del k d)) = length d.
Proof.
  induction d as [|[k0 v0] d IH]; simpl; [done|].
  destruct (str_eqb k0 k); simpl; [done|]. intros H. by rewrite IH.
Qed.

Definition record_not_found : exn := ValueError (lit "Record not found.").

(** [delete(name)] on a name of the book takes the entry away: [find(name)]
    gives [None] afterwards, every other name leads where it led, the
    book has one entry less and no record is touched; on a name that is
    not in the book it raises [ValueError("Record not found.")] and changes
    nothing. *)
Theorem delete_spec (w : world) (name : str) :
  NoDup (keys (data w)) ->
  (forall record, dict_get name (data w) = Some record ->
     exists w',
       AddressBook.delete name w = Some (Return tt, w') /\
       heap w' = heap w /\
       AddressBook.find name w' = Some (Return None, w') /\
       (forall k, k <> name -> dict_get k (data w') = dict_get k (data w)) /\
       S (length (data w')) = length (data w) /\
       NoDup (keys (data w'))) /\
  (dict_get name (data w) = None ->
     AddressBook.delete name w = Some (Raise record_not_found, w)).
Proof.
  intros Hnd. unfold AddressBook.delete, AddressBook.find. unfold_M. split.
  - intros record Hget. rewrite Hget.
    exists (mkWorld (heap w) (dict_del name (data w))). simpl. split_and!; try done.
    + assert (dict_get name (dict_del name (data w)) = None) as ->; [|done].
      apply dict_get_None. intros Hin%keys_del; [tauto | done].
    + intros k Hk. by apply dict_get_del_ne.
    + by apply (length_dict_del name record).
    + by apply NoDup_keys_del.
  - by intros ->.
Qed.

Lemma delete_spec_witness :
  (forall record, dict_get (lit "A") (data world_AL) = Some record ->
     exists w',
       AddressBook.delete (lit "A") world_AL = Some (Return tt, w') /\
       heap w' = heap world_AL /\
       AddressBook.find (lit "A") w' = Some (Return None, w') /\
       (forall k, k <> lit "A" ->
          dict_get k (data w') = dict_get k (data world_AL)) /\
       S (length (data w')) = length (data world_AL) /\
       NoDup (keys (data w'))) /\
  (dict_get (lit "A") (data world_AL) = None ->
     AddressBook.delete (lit "A") world_AL
       = Some (Raise record_not_found, world_AL)).
Proof.
  apply (delete_spec world_AL (lit "A")).
  apply NoDup_cons. split; [|apply NoDup_singleton].
  intros H%list_elem_of_singleton. discriminate H.
Defined.

(** ** Commands that only read *)

(** A computation that leaves the store as it found it, however it ends. *)
Definition read_only {A} (c : M A) : Prop :=
  forall w o w', c w = Some (o, w') -> w' = w.

Lemma read_only_ret {A} (a : A) : read_only (mret a).
Proof. intros w o w'. unfold_M. by intros [= _ <-]. Qed.

Lemma read_only_lift {A} (x : outcome A) : read_only (lift x).
Proof. intros w o w'. unfold_M. by intros [= _ <-]. Qed.

Lemma read_only_raise {A} (e : exn) : read_only (@raise A e).
Proof. intros w o w'. unfold_M. by intros [= _ <-]. Qed.

Lemma read_only_deref (record : ref) : read_only (deref record).
Proof.
  intros w o w'. unfold deref. destruct (heap w !! record); [|done].
  by intros [= _ <-].
Qed.

Lemma read_only_get_data : read_only get_data.
Proof. intros w o w'. unfold_M. by intros [= _ <-]. Qed.

Lemma read_only_bind {A B} (m : M A) (f : A -> M B) :
  read_only m -> (forall a, read_only (f a)) -> read_only (m ≫= f).
Proof.
  intros Hm Hf w o w'. unfold mbind, M_bind.
  destruct (m w) as [[[a|e] w1]|] eqn:E; [| |done].
  - apply Hm in E as ->. apply Hf.
  - apply Hm in E as ->. by intros [= _ <-].
Qed.

Lemma read_only_input_error (func : M str) :
  read_only func -> read_only (input_error func).
Proof.
  intros Hf w o w'. unfold input_error.
  destruct (func w) as [[[a|[]] w1]|] eqn:E; [| | | | | |done];
    apply Hf in E as ->; by intros [= _ <-].
Qed.

Lemma read_only_find (name : str) : read_only (AddressBook.find name).
Proof.
  apply read_only_bind; [apply read_only_get_data | intros; apply read_only_ret].
Qed.

Ltac read_only_step :=
  first
    [ apply read_only_input_error
    | apply read_only_find
    | apply read_only_ret | apply read_only_lift | apply read_only_raise
    | apply read_only_deref | apply read_only_get_data
    | apply read_only_bind; [|intros]
    | match goal with
      | |- read_only (match ?x with _ => _ end) => destruct x
      end ].

Lemma read_only_upcoming_loop (today next_week : date) (records : list ref) :
  forall acc, read_only (upcoming_loop today next_week records acc).
Proof.
  induction records as [|record records IH]; intros acc; simpl.
  - apply read_only_ret.
  - repeat read_only_step; apply IH.
Qed.

Lemma read_only_get_upcoming_birthdays (today : date) :
  read_only (get_upcoming_birthdays today).
Proof.
  unfold get_upcoming_birthdays. repeat read_only_step.
  apply read_only_upcoming_loop.
Qed.

Lemma read_only_birthday_lines (e : env) (records : list ref) :
  read_only (birthday_lines e records).
Proof.
  induction records as [|record records IH]; simpl.
  - apply read_only_ret.
  - unfold birthday_line. repeat read_only_step. apply IH.
Qed.

Lemma read_only_record_strs (zp : bool) (records : list ref) :
  read_only (record_strs zp records).
Proof.
  induction records as [|record records IH]; simpl.
  - apply read_only_ret.
  - repeat read_only_step. apply IH.
Qed.

Lemma read_only_show_commands (e : env) (args : list str) :
  read_only (show_phones args) /\
  read_only (show_birthday e args) /\
  read_only (birthdays e args).
Proof.
  split_and!.
  - unfold show_phones. repeat read_only_step.
  - unfold show_birthday. repeat read_only_step.
  - unfold birthdays. apply read_only_input_error. apply read_only_bind.
    + apply read_only_get_upcoming_birthdays.
    + intros [|record l]; repeat read_only_step.
      apply read_only_birthday_lines.
Qed.

(** The commands that show something change nothing: whatever the
    arguments and however they end, [show_phones], [show_birthday] and
    [birthdays] leave every record and the book as they were, and so does
    [get_upcoming_birthdays]. *)
Theorem show_commands_read_only (e : env) (args : list str) :
  read_only (show_phones args) /\
  read_only (show_birthday e args) /\
  read_only (birthdays e args) /\
  read_only (get_upcoming_birthdays (today e)).
Proof.
  destruct (read_only_show_commands e args) as (H1 & H2 & H3).
  split_and!; try done. apply read_only_get_upcoming_birthdays.
Qed.

(** ** What every book of a session satisfies *)

(** A record as the constructors and methods make them: the name is not
    empty, every phone has passed [Phone.validate] and the birthday, when
    there is one, is a date of the calendar. *)
Definition rec_ok (r : Rec.t) : Prop :=
  value (Rec.name r) <> [] /\
  Forall (fun p => Phone.validate (value p) = true) (Rec.phones r) /\
  (forall b, Rec.birthday r = Some b -> valid_date (value b) = true).

(** The entry leads to a record that bears the key as its name. *)
Definition entry_ok (w : world) (kv : str * ref) : Prop :=
  exists r, heap w !! kv.2 = Some r /\ value (Rec.name r) = kv.1.

(** The book of a session: its records are as above, no key is there
    twice and every key is the name of the record it leads to. *)
Definition book_inv (w : world) : Prop :=
  Forall rec_ok (heap w) /\ NoDup (keys (data w)) /\ Forall (entry_ok w) (data w).

Lemma book_inv_empty : book_inv empty_world.
Proof. split_and!; simpl; constructor. Qed.

Lemma book_inv_wf (w : world) : book_inv w -> wf w.
Proof.
  intros (_ & _ & H). unfold wf, dict_values. apply Forall_fmap.
  eapply Forall_impl; [done|]. intros [k record] (r & Hr & _). simpl in *.
  by apply lookup_lt_Some in Hr.
Qed.

Lemma book_inv_get (w : world) (name : str) (record : ref) :
  book_inv w -> dict_get name (data w) = Some record ->
  exists r, heap w !! record = Some r /\ value (Rec.name r) = name /\ rec_ok r.
Proof.
  intros (Hrecs & _ & Hdata) Hget%dict_get_Some_elem.
  rewrite Forall_forall in Hdata. destruct (Hdata _ Hget) as (r & Hr & Hn).
  exists r. split_and!; try done.
  rewrite Forall_forall in Hrecs. apply Hrecs. by apply list_elem_of_lookup_2 in Hr.
Qed.

(** A record put in the place of one with the same name. *)
Lemma book_inv_update (w : world) (record : ref) (r r' : Rec.t) :
  book_inv w -> heap w !! record = Some r ->
  rec_ok r' -> Rec.name r' = Rec.name r ->
  book_inv (mkWorld (<[record := r']> (heap w)) (data w)).
Proof.
  intros (Hrecs & Hnd & Hdata) Hr Hok Hname. split_and!; simpl; [|done|].
  - by apply Forall_insert.
  - eapply Forall_impl; [done|]. intros [k v] (r0 & Hr0 & Hk). simpl in *.
    unfold entry_ok. simpl. destruct (decide (v = record)) as [->|Hne].
    + exists r'. rewrite list_lookup_insert_eq by by apply lookup_lt_Some in Hr.
      split; [done|]. rewrite Hname. congruence.
    + exists r0. by rewrite list_lookup_insert_ne.
Qed.

Lemma dict_set_absent (k : str) (v : ref) (d : dict) :
  dict_get k d = None -> dict_set k v d = d ++ [(k, v)].
Proof.
  induction d as [|[k' v'] d IH]; simpl; [done|].
  destruct (str_eqb k' k); [done|]. intros H. by rewrite IH.
Qed.

(** A new record entered under its name, which was no key. *)
Lemma book_inv_alloc_set (w : world) (x : Rec.t) :
  book_inv w -> rec_ok x -> dict_get (value (Rec.name x)) (data w) = None ->
  book_inv (mkWorld (heap w ++ [x])
                    (dict_set (value (Rec.name x)) (length (heap w)) (data w))).
Proof.
  intros (Hrecs & Hnd & Hdata) Hok Hnone. rewrite dict_set_absent by done.
  split_and!; simpl.
  - apply Forall_app. split; [done | by apply Forall_singleton].
  - unfold keys. rewrite map_app. simpl. apply NoDup_app. split_and!.
    + done.
    + intros k Hk ->%list_elem_of_singleton. by apply dict_get_None in Hnone.
    + apply NoDup_singleton.
  - apply Forall_app. split.
    + eapply Forall_impl; [done|]. intros [k v] (r0 & Hr0 & Hk).
      exists r0. simpl in *. by rewrite lookup_app_l by by apply lookup_lt_Some in Hr0.
    + apply Forall_singleton. exists x. simpl.
      by rewrite lookup_app_r, Nat.sub_diag by done.
Qed.

Lemma dict_del_sub (k : str) (d : dict) (x : str * ref) :
  x ∈ dict_del k d -> x ∈ d.
Proof.
  induction d as [|[k' v'] d IH]; simpl; [done|].
  destruct (str_eqb k' k).
  - apply list_elem_of_further.
  - intros [->|?]%elem_of_cons; [apply list_elem_of_here|].
    apply list_elem_of_further. by apply IH.
Qed.

Lemma book_inv_del (w : world) (k : str) :
  book_inv w -> book_inv (mkWorld (heap w) (dict_del k (data w))).
Proof.
  intros (Hrecs & Hnd & Hdata). split_and!; simpl; [done| |].
  - by apply NoDup_keys_del.
  - rewrite Forall_forall in *. intros x Hx%dict_del_sub. by apply Hdata.
Qed.

Lemma Birthday_init_valid (v : str) (b : Birthday.t) :
  Birthday.init v = Return b -> valid_date (value b) = true.
Proof.
  unfold Birthday.init. destruct (strptime_dmY v) as [dt|] eqn:E; [|done].
  intros [= <-]. simpl.
  apply strptime_dmY_spec in E as (D & Mo & Y & y & m & d & _ & _ & _ & _ & _ & _ & _ & Hv & ->).
  done.
Qed.

Lemma rec_ok_new (name : str) : name <> [] -> rec_ok (Rec.mk (mkField name) [] None).
Proof. intros H. split_and!; simpl; [done | constructor | done]. Qed.

Lemma rec_ok_add_phone (r : Rec.t) (phone : str) :
  rec_ok r -> Phone.validate phone = true ->
  rec_ok (Rec.set_phones (Rec.phones r ++ [mkField phone]) r).
Proof.
  intros (? & ? & ?) Hv. split_and!; simpl; [done| |done].
  apply Forall_app. split; [done | by apply Forall_singleton].
Qed.

Lemma rec_ok_edit_phone (r : Rec.t) (i : nat) (phone : str) :
  rec_ok r -> Phone.validate phone = true ->
  rec_ok (Rec.set_phones (<[i := mkField phone]> (Rec.phones r)) r).
Proof.
  intros (? & ? & ?) Hv. split_and!; simpl; [done| |done].
  destruct (decide (i < length (Rec.phones r))%nat).
  - by apply Forall_insert.
  - assert (length (Rec.phones r) <= i)%nat as Hge by lia.
    by rewrite (list_insert_ge _ _ _ Hge).
Qed.

Lemma rec_ok_set_birthday (r : Rec.t) (b : Birthday.t) :
  rec_ok r -> valid_date (value b) = true ->
  rec_ok (Rec.set_birthday (Some b) r).
Proof.
  intros (? & ? & ?) Hv. split_and!; simpl; [done|done|]. by intros ? [= <-].
Qed.

(** ** add_contact on a name that is not in the book *)

Lemma insert_last (A : Type) (l : list A) (x y : A) :
  <[length l := y]> (l ++ [x]) = l ++ [y].
Proof. by rewrite insert_app_r_alt, Nat.sub_diag by done. Qed.

Lemma add_contact_absent (w : world) (name phone : str) (extra : list str) :
  dict_get name (data w) = None ->
  add_contact (name :: phone :: extra) w =
  if truthy name then
    let d := dict_set name (length (heap w)) (data w) in
    if truthy phone then
      if Phone.validate phone then
        Some (Return (lit "Contact added."),
              mkWorld (heap w ++ [Rec.mk (mkField name) [mkField phone] None]) d)
      else
        Some (Return (lit "Invalid phone number format."),
              mkWorld (heap w ++ [Rec.mk (mkField name) [] None]) d)
    else
      Some (Return (lit "Contact added."),
            mkWorld (heap w ++ [Rec.mk (mkField name) [] None]) d)
  else Some (Return (lit "Name cannot be empty."), w).
Proof.
  intros Hget.
  unfold add_contact, input_error, AddressBook.find, AddressBook.add_record,
    RecordM.init, RecordM.add_phone, Name.init.
  unfold_M. simpl. rewrite Hget. simpl.
  destruct name as [|c name]; simpl; [done|].
  unfold deref, alloc. simpl. rewrite lookup_app_r by done.
  rewrite Nat.sub_diag. simpl.
  destruct (truthy phone); [|done].
  rewrite Phone_init_cases. destruct (Phone.validate phone); [|done].
  unfold update. simpl. rewrite lookup_app_r by done.
  rewrite Nat.sub_diag. simpl. by rewrite insert_last.
Qed.

(** For a name that is no key of the book, [add_contact([name, phone])]
    makes a new record with that name and enters it under the name, after
    the keys there are, touching no other record.  With a valid [phone]
    the record has that one phone and the answer is "Contact added."; with
    a [phone] that is not valid the answer is "Invalid phone number
    format.", and the contact has been entered all the same, without a
    phone.  An empty name is refused with "Name cannot be empty." and
    nothing changes. *)
Theorem add_contact_new (w : world) (name phone : str) (extra : list str) :
  dict_get name (data w) = None ->
  (name = [] ->
   add_contact (name :: phone :: extra) w
   = Some (Return (lit "Name cannot be empty."), w)) /\
  (name <> [] ->
   exists msg phones,
     add_contact (name :: phone :: extra) w
     = Some (Return msg,
             mkWorld (heap w ++ [Rec.mk (mkField name) phones None])
                     (data w ++ [(name, length (heap w))])) /\
     (Phone.validate phone = true ->
      phones = [mkField phone] /\ msg = lit "Contact added.") /\
     (Phone.validate phone = false -> phone <> [] ->
      phones = [] /\ msg = lit "Invalid phone number format.") /\
     (phone = [] -> phones = [] /\ msg = lit "Contact added.")).
Proof.
  intros Hget. rewrite (add_contact_absent w name phone extra Hget).
  split; [by intros ->|]. intros Hname.
  destruct name as [|c name]; [done|]. cbn [truthy]. cbv zeta.
  rewrite (dict_set_absent _ _ _ Hget).
  destruct phone as [|c' phone]; cbn [truthy].
  - exists (lit "Contact added."), []. split_and!; try done.
  - destruct (Phone.validate (c' :: phone)) eqn:Hv.
    + exists (lit "Contact added."), [mkField (c' :: phone)]. split_and!; done.
    + exists (lit "Invalid phone number format."), []. split_and!; done.
Qed.

Lemma add_contact_new_witness :
  (lit "Ann" = [] ->
   add_contact [lit "Ann"; lit "12345"] world_A
   = Some (Return (lit "Name cannot be empty."), world_A)) /\
  (lit "Ann" <> [] ->
   exists msg phones,
     add_contact [lit "Ann"; lit "12345"] world_A
     = Some (Return msg,
             mkWorld (heap world_A ++ [Rec.mk (mkField (lit "Ann")) phones None])
                     (data world_A ++ [(lit "Ann", length (heap world_A))])) /\
     (Phone.validate (lit "12345") = true ->
      phones = [mkField (lit "12345")] /\ msg = lit "Contact added.") /\
     (Phone.validate (lit "12345") = false -> lit "12345" <> [] ->
      phones = [] /\ msg = lit "Invalid phone number format.") /\
     (lit "12345" = [] -> phones = [] /\ msg = lit "Contact added.")).
Proof.
  apply (add_contact_new world_A (lit "Ann") (lit "12345") []). reflexivity.
Defined.

(** ** The commands keep the book of a session *)

Definition keeps_inv {A} (c : M A) : Prop :=
  forall w o w', book_inv w -> c w = Some (o, w') -> book_inv w'.

Lemma keeps_inv_read_only {A} (c : M A) : read_only c -> keeps_inv c.
Proof. intros H w o w' Hinv E. by apply H in E as ->. Qed.

Lemma add_contact_keeps_inv (args : list str) : keeps_inv (add_contact args).
Proof.
  intros w o w' Hinv. destruct args as [|name [|phone extra]].
  - by intros [= _ <-].
  - by intros [= _ <-].
  - destruct (dict_get name (data w)) as [record|] eqn:Hget.
    + destruct (book_inv_get w name record Hinv Hget) as (r & Hr & _ & Hok).
      rewrite (add_contact_present w name phone extra record r Hget Hr).
      destruct (truthy phone); [|by intros [= _ <-]].
      destruct (Phone.validate phone) eqn:Hv; [|by intros [= _ <-]].
      intros [= _ <-]. apply (book_inv_update w record r); try done.
      by apply rec_ok_add_phone.
    + rewrite (add_contact_absent w name phone extra Hget).
      destruct name as [|c name]; cbn [truthy]; [by intros [= _ <-]|].
      cbv zeta.
      pose proof (book_inv_alloc_set w (Rec.mk (mkField (c :: name)) [] None) Hinv
                    (rec_ok_new (c :: name) ltac:(done)) Hget) as Hinv0.
      destruct (truthy phone); [|by intros [= _ <-]].
      destruct (Phone.validate phone) eqn:Hv; [|by intros [= _ <-]].
      intros [= _ <-].
      pose proof (book_inv_update _ (length (heap w))
                    (Rec.mk (mkField (c :: name)) [] None)
                    (Rec.mk (mkField (c :: name)) [mkField phone] None) Hinv0) as H.
      simpl in H. rewrite insert_last in H. apply H.
      * by rewrite lookup_app_r, Nat.sub_diag by done.
      * split_and!; simpl; [done | by apply Forall_singleton | done].
      * done.
Qed.

Lemma change_phone_keeps_inv (args : list str) : keeps_inv (change_phone args).
Proof.
  intros w o w' Hinv.
  destruct args as [|name [|old [|new [|? ?]]]]; try by intros [= _ <-].
  unfold change_phone, input_error, AddressBook.find. unfold_M. simpl.
  destruct (dict_get name (data w)) as [record|] eqn:Hget; simpl;
    [|by intros [= _ <-]].
  destruct (book_inv_get w name record Hinv Hget) as (r & Hr & _ & Hok).
  rewrite (edit_phone_eq record r old new w Hr).
  destruct (first_index old (Rec.phones r)); [|by intros [= _ <-]].
  destruct (Phone.validate new) eqn:Hv; [|by intros [= _ <-]].
  intros [= _ <-]. apply (book_inv_update w record r); try done.
  by apply rec_ok_edit_phone.
Qed.

Lemma add_birthday_keeps_inv (args : list str) : keeps_inv (add_birthday args).
Proof.
  intros w o w' Hinv.
  destruct args as [|name [|birthday [|? ?]]]; try by intros [= _ <-].
  unfold add_birthday, input_error, AddressBook.find, RecordM.add_birthday.
  unfold_M. simpl.
  destruct (dict_get name (data w)) as [record|] eqn:Hget; simpl;
    [|by intros [= _ <-]].
  destruct (book_inv_get w name record Hinv Hget) as (r & Hr & _ & Hok).
  destruct (Birthday.init birthday) as [b|e] eqn:Hb.
  - rewrite (update_Some record r _ w Hr). intros [= _ <-].
    apply (book_inv_update w record r); try done.
    apply rec_ok_set_birthday; [done|]. by apply (Birthday_init_valid birthday).
  - unfold Birthday.init in Hb. destruct (strptime_dmY birthday); [done|].
    injection Hb as <-. by intros [= _ <-].
Qed.

Lemma delete_contact_keeps_inv (args : list str) : keeps_inv (delete_contact args).
Proof.
  intros w o w' Hinv. destruct args as [|name ?]; [by intros [= _ <-]|].
  unfold delete_contact, input_error, AddressBook.delete. unfold_M. simpl.
  destruct (dict_get name (data w)); simpl; intros [= _ <-]; [|done].
  by apply book_inv_del.
Qed.

(** Every command keeps the book of a session: after [add_contact],
    [change_phone], [show_phones], [add_birthday], [show_birthday],
    [birthdays] or [delete_contact], whatever the arguments and the
    answer, every record still has a name that is not empty, phones that
    are valid and a birthday that is a date, and every key of the book is
    still the name of the one record it leads to. *)
Theorem commands_keep_book (e : env) (args : list str) :
  keeps_inv (add_contact args) /\
  keeps_inv (change_phone args) /\
  keeps_inv (show_phones args) /\
  keeps_inv (add_birthday args) /\
  keeps_inv (show_birthday e args) /\
  keeps_inv (birthdays e args) /\
  keeps_inv (delete_contact args).
Proof.
  destruct (read_only_show_commands e args) as (H1 & H2 & H3).
  split_and!.
  - apply add_contact_keeps_inv.
  - apply change_phone_keeps_inv.
  - by apply keeps_inv_read_only.
  - apply add_birthday_keeps_inv.
  - by apply keeps_inv_read_only.
  - by apply keeps_inv_read_only.
  - apply delete_contact_keeps_inv.
Qed.

(** ** Arguments that are missing, names that are unknown *)

(** With too few or too many arguments a command answers with the message
    of the failed unpacking or indexing and changes nothing: [add_contact]
    wants two arguments at least, [change_phone] three, [add_birthday]
    two, and [show_phones], [show_birthday] and [delete_contact] one at
    least. *)
Theorem commands_wrong_arity (e : env) (args : list str) (w : world) :
  ((length args < 2)%nat ->
   add_contact args w
   = Some (Return (exn_str (not_enough (lit "at least 2") (length args))), w)) /\
  ((length args < 3)%nat ->
   change_phone args w
   = Some (Return (exn_str (not_enough (lit "3") (length args))), w)) /\
  ((3 < length args)%nat ->
   change_phone args w = Some (Return (exn_str (too_many (lit "3"))), w)) /\
  ((length args < 2)%nat ->
   add_birthday args w
   = Some (Return (exn_str (not_enough (lit "2") (length args))), w)) /\
  ((2 < length args)%nat ->
   add_birthday args w = Some (Return (exn_str (too_many (lit "2"))), w)) /\
  (args = [] ->
   show_phones args w = Some (Return (lit "list index out of range"), w) /\
   show_birthday e args w = Some (Return (lit "list index out of range"), w) /\
   delete_contact args w = Some (Return (lit "list index out of range"), w)).
Proof.
  split_and!.
  - destruct args as [|? [|? ?]]; simpl; intros; try done; lia.
  - destruct args as [|? [|? [|? ?]]]; simpl; intros; try done; lia.
  - destruct args as [|? [|? [|? [|? ?]]]]; simpl; intros; try done; lia.
  - destruct args as [|? [|? ?]]; simpl; intros; try done; lia.
  - destruct args as [|? [|? [|? ?]]]; simpl; intros; try done; lia.
  - by intros ->.
Qed.

Definition contact_not_found_msg : str := lit "Contact not found.".

(** For a name that is no key of the book, [change_phone], [show_phones],
    [add_birthday] and [show_birthday] answer "Contact not found." and
    [delete_contact] answers "Record not found."; nothing changes. *)
Theorem commands_unknown_name (e : env) (w : world) (name a b : str)
    (extra : list str) :
  dict_get name (data w) = None ->
  change_phone [name; a; b] w = Some (Return contact_not_found_msg, w) /\
  show_phones (name :: extra) w = Some (Return contact_not_found_msg, w) /\
  add_birthday [name; a] w = Some (Return contact_not_found_msg, w) /\
  show_birthday e (name :: extra) w = Some (Return contact_not_found_msg, w) /\
  delete_contact (name :: extra) w = Some (Return (lit "Record not found."), w).
Proof.
  intros Hget.
  unfold change_phone, show_phones, add_birthday, show_birthday, delete_contact,
    input_error, AddressBook.find, AddressBook.delete.
  unfold_M. simpl. rewrite Hget. done.
Qed.

Lemma commands_unknown_name_witness :
  change_phone [lit "Z"; lit "1"; lit "2"] world_A
    = Some (Return contact_not_found_msg, world_A) /\
  show_phones [lit "Z"] world_A = Some (Return contact_not_found_msg, world_A) /\
  add_birthday [lit "Z"; lit "1"] world_A
    = Some (Return contact_not_found_msg, world_A) /\
  show_birthday env_2023 [lit "Z"] world_A
    = Some (Return contact_not_found_msg, world_A) /\
  delete_contact [lit "Z"] world_A
    = Some (Return (lit "Record not found."), world_A).
Proof.
  apply (commands_unknown_name env_2023 world_A (lit "Z") (lit "1") (lit "2") []).
  reflexivity.
Defined.

(** ** Commands that change the book do it wholly or not at all *)

(** [change_phone], [add_birthday] and [delete_contact] either give their
    answer of success or leave every record and the book as they were;
    [add_contact] does not: see [add_contact_new]. *)
Theorem commands_all_or_nothing (args : list str) (w w' : world) (s : str) :
  (change_phone args w = Some (Return s, w') ->
   s = lit "Phone number updated." \/ w' = w) /\
  (add_birthday args w = Some (Return s, w') ->
   s = lit "Birthday added." \/ w' = w) /\
  (delete_contact args w = Some (Return s, w') ->
   s = lit "Contact deleted." \/ w' = w).
Proof.
  split_and!.
  - destruct args as [|name [|old [|new [|? ?]]]];
      try (intros [= _ <-]; by right).
    unfold change_phone, input_error, AddressBook.find. unfold_M. simpl.
    destruct (dict_get name (data w)) as [record|]; simpl;
      [|intros [= _ <-]; by right].
    destruct (heap w !! record) as [r|] eqn:Hr.
    + rewrite (edit_phone_eq record r old new w Hr).
      destruct (first_index old (Rec.phones r)); [|intros [= _ <-]; by right].
      destruct (Phone.validate new); intros [= <- <-]; [by left | by right].
    + unfold RecordM.edit_phone, deref. unfold_M. by rewrite Hr.
  - destruct args as [|name [|birthday [|? ?]]];
      try (intros [= _ <-]; by right).
    unfold add_birthday, input_error, AddressBook.find, RecordM.add_birthday,
      Birthday.init, update.
    unfold_M. simpl.
    destruct (dict_get name (data w)) as [record|]; simpl;
      [|intros [= _ <-]; by right].
    destruct (strptime_dmY birthday); simpl; [|intros [= _ <-]; by right].
    destruct (heap w !! record); [|done]. intros [= <- <-]. by left.
  - destruct args as [|name ?]; [intros [= _ <-]; by right|].
    unfold delete_contact, input_error, AddressBook.delete. unfold_M. simpl.
    destruct (dict_get name (data w)); simpl; intros [= <- <-];
      [by left | by right].
Qed.

(** ** add_birthday, then show_birthday *)

Lemma add_birthday_present (w : world) (name birthday : str) (record : ref)
    (r : Rec.t) :
  dict_get name (data w) = Some record -> heap w !! record = Some r ->
  add_birthday [name; birthday] w =
  match strptime_dmY birthday with
  | Some dt =>
      Some (Return (lit "Birthday added."),
            mkWorld (<[record := Rec.set_birthday (Some (mkField dt)) r]> (heap w))
                    (data w))
  | None => Some (Return (lit "Invalid date format. Use DD.MM.YYYY"), w)
  end.
Proof.
  intros Hget Hr.
  unfold add_birthday, input_error, AddressBook.find, RecordM.add_birthday,
    Birthday.init.
  unfold_M. simpl. rewrite Hget. simpl.
  destruct (strptime_dmY birthday); simpl; [|done].
  by rewrite (update_Some record r _ w Hr).
Qed.

Lemma strftime_canonical (zp : bool) (dt : date) :
  valid_date dt = true -> zp = true \/ 1000 <= year dt ->
  strftime_dmY zp dt = canonical_dmY dt.
Proof.
  intros Hv Hy. unfold strftime_dmY, canonical_dmY, strftime_Y.
  destruct zp; [done|]. destruct Hy as [|Hy]; [done|].
  destruct (valid_date_bounds dt Hv) as (? & _).
  assert (year_text_plain (year dt) = true) as ->%bool_decide_eq_true; [|done].
  apply year_texts_plain. lia.
Qed.

(** For a contact of the book and a text [birthday] that [strptime] reads
    as the date [dt], [add_birthday([name, birthday])] answers "Birthday
    added.", puts [dt] in the place of whatever birthday the record had and
    leaves its name and phones, the other records and the book; after it
    [show_birthday([name])] answers "Birthday: " and the date in the form
    of [strftime], which is the text given when that is the canonical
    DD.MM.YYYY of a date from the year 1000 on. *)
Theorem add_then_show_birthday (e : env) (w : world) (name birthday : str)
    (record : ref) (r : Rec.t) (dt : date) :
  dict_get name (data w) = Some record -> heap w !! record = Some r ->
  strptime_dmY birthday = Some dt ->
  exists w',
    add_birthday [name; birthday] w = Some (Return (lit "Birthday added."), w') /\
    w' = mkWorld (<[record := Rec.mk (Rec.name r) (Rec.phones r)
                                 (Some (mkField dt))]> (heap w)) (data w) /\
    show_birthday e [name] w'
      = Some (Return (lit "Birthday: " ++ strftime_dmY (zero_pad e) dt), w') /\
    (birthday = canonical_dmY dt -> 1000 <= year dt ->
     show_birthday e [name] w' = Some (Return (lit "Birthday: " ++ birthday), w')).
Proof.
  intros Hget Hr Hdt. rewrite (add_birthday_present w name birthday record r Hget Hr).
  rewrite Hdt. eexists. split; [done|]. split; [done|].
  assert (show_birthday e [name]
            (mkWorld (<[record := Rec.mk (Rec.name r) (Rec.phones r)
                                    (Some (mkField dt))]> (heap w)) (data w))
          = Some (Return (lit "Birthday: " ++ strftime_dmY (zero_pad e) dt),
                  mkWorld (<[record := Rec.mk (Rec.name r) (Rec.phones r)
                                    (Some (mkField dt))]> (heap w)) (data w)))
    as Hshow.
  { unfold show_birthday, input_error, AddressBook.find. unfold_M.
    cbn [index_0 data]. rewrite Hget.
    erewrite deref_Some;
      [|simpl; apply list_lookup_insert_eq; by apply lookup_lt_Some in Hr].
    done. }
  split; [exact Hshow|]. intros -> Hy. etransitivity; [exact Hshow|].
  rewrite strftime_canonical; [done | | by right].
  apply strptime_dmY_spec in Hdt as (? & ? & ? & ? & ? & ? & _ & _ & _ & _ & _ & _ & _ & Hv & ->).
  done.
Qed.

Lemma add_then_show_birthday_witness :
  exists w',
    add_birthday [lit "A"; lit "12.06.1990"] world_A
      = Some (Return (lit "Birthday added."), w') /\
    w' = mkWorld (<[O := Rec.mk (Rec.name rec_A) (Rec.phones rec_A)
                            (Some (mkField (mkdate 1990 6 12)))]> (heap world_A))
                 (data world_A) /\
    show_birthday env_2023 [lit "A"] w'
      = Some (Return (lit "Birthday: " ++
                      strftime_dmY (zero_pad env_2023) (mkdate 1990 6 12)), w') /\
    (lit "12.06.1990" = canonical_dmY (mkdate 1990 6 12) ->
     1000 <= year (mkdate 1990 6 12) ->
     show_birthday env_2023 [lit "A"] w'
       = Some (Return (lit "Birthday: " ++ lit "12.06.1990"), w')).
Proof.
  apply (add_then_show_birthday env_2023 world_A (lit "A") (lit "12.06.1990")
           O rec_A (mkdate 1990 6 12)); reflexivity.
Defined.

(** ** The loop of main *)

(** A line of white space only; the empty line is one. *)
Definition blank (line : str) : Prop :=
  Forall (fun c => is_whitespace c = true) line.

Definition no_command : exn := not_enough (lit "at least 1") 0.

Lemma parse_input_blank (line : str) : parse_input line = [] <-> blank line.
Proof. unfold parse_input, blank. rewrite split_from_nil. tauto. Qed.

(** On a line of white space only, the empty line included, the unpacking
    of the loop raises a [ValueError], which nothing catches, and the book
    is as it was. *)
Theorem main_step_blank (dk : disk) (e : env) (line : str) (w : world) :
  blank line -> main_step dk e line w = Some (Raise no_command, w).
Proof.
  intros H%parse_input_blank. unfold main_step. rewrite H. done.
Qed.

Lemma main_step_blank_witness :
  main_step (fun _ => None) env_2023 (lit "   ") world_A
  = Some (Raise no_command, world_A).
Proof.
  apply (main_step_blank (fun _ => None) env_2023 (lit "   ") world_A).
  repeat constructor.
Defined.




Lemma main_step_words (dk : disk) (e : env) (line command : str)
    (args : list str) :
  parse_input line = command :: args ->
  main_step dk e line = dispatch dk e command args.
Proof. unfold main_step. by intros ->. Qed.




(** A disk on which no file can be written. *)
Definition read_only_disk : disk :=
  fun _ => Some (lit "[Errno 30] Read-only file system: 'addressbook.pkl'").


Lemma keeps_inv_printed (c : M str) :
  keeps_inv c -> keeps_inv (s ← c; mret (Printed s)).
Proof.
  intros Hc w o w' Hinv. unfold mbind, M_bind.
  destruct (c w) as [[[s|ex] w1]|] eqn:E; [| |done].
  - unfold_M. intros [= _ <-]. by apply (Hc w _ _ Hinv E).
  - intros [= _ <-]. by apply (Hc w _ _ Hinv E).
Qed.

Lemma read_only_save_data (dk : disk) : read_only (save_data dk).
Proof.
  intros w o w'. unfold save_data. destruct (dk w); by intros [= _ <-].
Qed.

Lemma dispatch_keeps_inv (dk : disk) (e : env) (command : str)
    (args : list str) :
  keeps_inv (dispatch dk e command args).
Proof.
  destruct (read_only_show_commands e args) as (H1 & H2 & H3).
  unfold dispatch.
  repeat match goal with
  | |- keeps_inv (if ?b then _ else _) => destruct b
  end;
    try (apply keeps_inv_printed);
    try (apply keeps_inv_read_only, read_only_ret).
  - apply keeps_inv_read_only, read_only_bind;
      [apply read_only_save_data | intros; apply read_only_ret].
  - apply add_contact_keeps_inv.
  - apply change_phone_keeps_inv.
  - by apply keeps_inv_read_only.
  - apply keeps_inv_read_only. repeat read_only_step.
    apply read_only_record_strs.
  - apply add_birthday_keeps_inv.
  - by apply keeps_inv_read_only.
  - by apply keeps_inv_read_only.
  - apply delete_contact_keeps_inv.
Qed.

Lemma main_step_keeps_inv (dk : disk) (e : env) (line : str) :
  keeps_inv (main_step dk e line).
Proof.
  destruct (parse_input line) as [|command args] eqn:E.
  - intros w o w' Hinv. unfold main_step. rewrite E. by intros [= _ <-].
  - rewrite (main_step_words dk e line command args E). apply dispatch_keeps_inv.
Qed.





(** Three sessions: a blank line crashes the first; the second ends with
    exit and a written file; the third ends with exit on a disk that
    cannot be written. *)
Example main_session_example :
  main (fun _ => None) env_2023 [lit "add Ann 0501234567"; lit ""; lit "exit"]
    empty_world
  = Some ([lit "Welcome to the assistant bot!"; lit "Contact added."],
          Crashed no_command,
          mkWorld [Rec.mk (mkField (lit "Ann")) [mkField (lit "0501234567")] None]
                  [(lit "Ann", O)]) /\
  main (fun _ => None) env_2023 [lit "add Ann 0501234567"; lit "exit"]
    empty_world
  = Some ([lit "Welcome to the assistant bot!"; lit "Contact added.";
           lit "Good bye!"],
          Exited,
          mkWorld [Rec.mk (mkField (lit "Ann")) [mkField (lit "0501234567")] None]
                  [(lit "Ann", O)]) /\
  main read_only_disk env_2023 [lit "add Ann 0501234567"; lit "exit"]
    empty_world
  = Some ([lit "Welcome to the assistant bot!"; lit "Contact added."],
          Crashed (OSError
                     (lit "[Errno 30] Read-only file system: 'addressbook.pkl'")),
          mkWorld [Rec.mk (mkField (lit "Ann")) [mkField (lit "0501234567")] None]
                  [(lit "Ann", O)]).
Proof. repeat split. Qed.

(** ** The query on a book without a birthday on 29 February *)

(** In a book as sessions leave it in which no birthday is a 29 February,
    on a day of the years 1 to 9998 whose next week is in the calendar,
    the query does not fail: it gives exactly the records whose
    anniversary lies between today and the day a week later, in the order
    of the book. *)
Theorem get_upcoming_birthdays_no_leap_day (today : date) (w : world) :
  book_inv w ->
  is_Return (date_add_days today 7) = true ->
  1 <= year today <= 9998 ->
  (forall record r b,
     record ∈ dict_values (data w) -> heap w !! record = Some r ->
     Rec.birthday r = Some b ->
     ~ (month (value b) = 2 /\ day (value b) = 29)) ->
  get_upcoming_birthdays today w = Some (Return (upcoming_spec today w), w).
Proof.
  intros Hinv Hclock Hy Hleap. unfold get_upcoming_birthdays.
  rewrite (bind_Return _ _ w w (plus_days today 7))
    by (unfold lift; by rewrite (date_add_days_Return today 7 Hclock)).
  rewrite (bind_Return _ _ w w (data w)) by done.
  apply (upcoming_loop_Return today (plus_days today 7) w eq_refl).
  - apply Forall_forall. intros record Hrecord r b Hr Hb.
    destruct Hinv as (Hrecs & _). rewrite Forall_forall in Hrecs.
    destruct (Hrecs r (list_elem_of_lookup_2 _ _ _ Hr)) as (_ & _ & Hvalid).
    apply next_birthday_total; eauto.
  - by apply book_inv_wf.
Qed.

(** Contact L, born on a 29 February, has been deleted: its record is
    still in the store, and no longer in the book. *)
Definition world_A_without_L : world :=
  mkWorld [rec_A_birthday; rec_L] [(lit "A", O)].

Lemma get_upcoming_birthdays_no_leap_day_witness :
  delete_contact [lit "L"] world_AL
  = Some (Return (lit "Contact deleted."), world_A_without_L) /\
  get_upcoming_birthdays (mkdate 2023 6 10) world_A_without_L
  = Some (Return [O], world_A_without_L).
Proof.
  split; [reflexivity|].
  apply (get_upcoming_birthdays_no_leap_day (mkdate 2023 6 10) world_A_without_L).
  - split_and!.
    + repeat constructor; simpl; try done; intros ? [= <-]; reflexivity.
    + apply NoDup_singleton.
    + repeat constructor; eexists; split; reflexivity.
  - reflexivity.
  - simpl. lia.
  - intros record r b Hrecord Hr Hb [Hm Hd].
    apply list_elem_of_singleton in Hrecord as ->.
    injection Hr as <-. injection Hb as <-. discriminate Hm.
Defined.
